(** * zk-codehash-timeline: the scan, the change points and the verdict

    A shallow embedding of [app.py].  Python's [int] is [Z], [str] is
    [string], [Optional[str]] is [option string], a list of tuples is a
    [list] of pairs.  The effects of the program (reading the wall clock,
    printing, querying the node, raising and catching exceptions) are threaded
    through a small state-and-exception monad [Py]. *)

From Stdlib Require Import ZArith Lia HexString.
From stdpp Require Import base list strings gmap sorting.

Local Open Scope Z_scope.

(** ** Exceptions *)

(** The exceptions the program raises or lets through.  [RpcFailure] stands
    for whatever [w3.eth.get_code] raises (a subclass of [Exception]);
    [SystemExit] is what [sys.exit] raises and [KeyboardInterrupt] what the
    interpreter raises when the user interrupts it; both are
    [BaseException]s that [except Exception] does not catch. *)
Inductive exn : Type :=
  | RpcFailure (cause : string)
  | RuntimeError (block_id : Z) (cause : exn)
  | ValueError (msg : string)
  | ZeroDivisionError
  | SystemExit (code : Z)
  | KeyboardInterrupt.

Definition is_Exception (e : exn) : bool :=
  match e with
  | SystemExit _ | KeyboardInterrupt => false
  | _ => true
  end.

Definition is_ValueError (e : exn) : bool :=
  match e with
  | ValueError _ => true
  | _ => false
  end.

(** ** Data *)

Definition bytes : Type := list Byte.byte.

(** One element of the timeline: [(blockNumber, codeHashOrNone)]. *)
Definition entry : Type := Z * option string.

(** The dictionary that [main] hands to [json.dumps]. *)
Record report (Time : Type) : Type := Report {
  r_rpc : string;
  r_chain_id : option Z;
  r_address : string;
  r_from_block : Z;
  r_to_block : Z;
  r_step : Z;
  r_timeline : list entry;
  r_change_points : list entry;
  r_unique_hashes : list string;
  r_changed : bool;
  r_elapsed : Time * Time
}.
Arguments Report {Time}.

(** What the program prints, one constructor per [print] of the source. *)
Inductive output (Time : Type) : Type :=
  | OutChecking (block : Z)
  | OutWarning (block : Z) (e : exn)
  | OutInvalidRpc
  | OutBadRange
  | OutBadStep
  | OutBadAddress (e : exn)
  | OutNoConnection
  | OutBanner
  | OutChainId (id : Z)
  | OutRpc (rpc : string)
  | OutAddress (address : string)
  | OutRange (from_block to_block step : Z)
  | OutSummary
  | OutEntry (block : Z) (h : option string)
  | OutChanged
  | OutUnchanged
  | OutCompleted (t0 t1 : Time)
  | OutJson (r : report Time).
Arguments OutChecking {Time}.
Arguments OutWarning {Time}.
Arguments OutInvalidRpc {Time}.
Arguments OutBadRange {Time}.
Arguments OutBadStep {Time}.
Arguments OutBadAddress {Time}.
Arguments OutNoConnection {Time}.
Arguments OutBanner {Time}.
Arguments OutChainId {Time}.
Arguments OutRpc {Time}.
Arguments OutAddress {Time}.
Arguments OutRange {Time}.
Arguments OutSummary {Time}.
Arguments OutEntry {Time}.
Arguments OutChanged {Time}.
Arguments OutUnchanged {Time}.
Arguments OutCompleted {Time}.
Arguments OutJson {Time}.

(** ** The world outside the program *)

(** The node behind [w3], the [Web3] helpers and the wall clock.  [clock n]
    is what the [n]-th call of [time.time()] returns;  [get_code] answers
    with the bytecode ([None] or empty when there is none) or with the
    message of the exception it raises. *)
Record env (Time : Type) : Type := Env {
  is_address : string → bool;
  to_checksum_address : string → string;
  keccak_hex : bytes → string;
  get_code : string → Z → string + option bytes;
  is_connected : bool;
  chain_id : option Z;
  clock : nat → Time;
  progress_due : Time → Time → bool
}.
Arguments Env {Time}.
Arguments is_address {Time}.
Arguments to_checksum_address {Time}.
Arguments keccak_hex {Time}.
Arguments get_code {Time}.
Arguments is_connected {Time}.
Arguments chain_id {Time}.
Arguments clock {Time}.
Arguments progress_due {Time}.

(** The part of the world the program changes: how often the clock was read,
    what was printed, and which [get_code] queries went out, all in order. *)
Record world (Time : Type) : Type := World {
  ticks : nat;
  stdout : list (output Time);
  queries : list (string * Z)
}.
Arguments World {Time}.
Arguments ticks {Time}.
Arguments stdout {Time}.
Arguments queries {Time}.

Definition start_world {Time : Type} : world Time := World 0%nat [] [].

(** ** The monad *)

Definition Py (Time A : Type) : Type := world Time → (exn + A) * world Time.

Global Instance Py_ret {Time} : MRet (Py Time) :=
  λ A (a : A) w, (inr a, w).

Global Instance Py_bind {Time} : MBind (Py Time) :=
  λ A B (f : A → Py Time B) (m : Py Time A) w,
    match m w with
    | (inl e, w') => (inl e, w')
    | (inr a, w') => f a w'
    end.

Definition raise {Time A} (e : exn) : Py Time A := λ w, (inl e, w).

(** [try: body / except cls as e: handler e], for a class [cls] of
    exceptions; an exception outside [cls] passes through. *)
Definition try_except {Time A} (cls : exn → bool) (body : Py Time A)
    (handler : exn → Py Time A) : Py Time A :=
  λ w, match body w with
       | (inl e, w') => if cls e then handler e w' else (inl e, w')
       | (inr a, w') => (inr a, w')
       end.

(** [sys.exit(code)]. *)
Definition sys_exit {Time A} (code : Z) : Py Time A := raise (SystemExit code).

Definition print {Time} (o : output Time) : Py Time unit :=
  λ w, (inr tt, World (ticks w) (stdout w ++ [o]) (queries w)).

Section Program.
Context {Time : Type}.
Variable E : env Time.

Abbreviation Py := (Py Time).

(** [time.time()]. *)
Definition time_time : Py Time :=
  λ w, (inr (clock E (ticks w)), World (S (ticks w)) (stdout w) (queries w)).

(** [w3.eth.get_code(address, block_identifier=block_id)]. *)
Definition eth_get_code (address : string) (block_id : Z) : Py (option bytes) :=
  λ w, let w' := World (ticks w) (stdout w) (queries w ++ [(address, block_id)]) in
       match get_code E address block_id with
       | inl cause => (inl (RpcFailure cause), w')
       | inr code => (inr code, w')
       end.

(** [code is None or len(code) == 0]. *)
Definition no_code (code : option bytes) : bool :=
  match code with
  | None => true
  | Some c => (Z.of_nat (length c) =? 0)
  end.

Definition codehash_at (address : string) (block_id : Z) : Py (option string) :=
  try_except is_Exception
    (code ← eth_get_code address block_id;
     if no_code code then mret None
     else mret (Some (keccak_hex E (default [] code))))
    (λ e, raise (RuntimeError block_id e)).

(** ** [range] and [%] as Python defines them *)

Definition range_length (start stop step : Z) : Z :=
  if 0 <? step then
    if start <? stop then (stop - start - 1) / step + 1 else 0
  else
    if stop <? start then (start - stop - 1) / (- step) + 1 else 0.

Definition range (start stop step : Z) : Py (list Z) :=
  if step =? 0 then raise (ValueError "range() arg 3 must not be zero")
  else mret ((λ i : nat, start + Z.of_nat i * step)
               <$> seq 0 (Z.to_nat (range_length start stop step))).

Definition py_mod (a b : Z) : Py Z :=
  if b =? 0 then raise ZeroDivisionError else mret (a mod b).

(** ** [scan_codehash_timeline] *)

(** The body of the [for] loop over [enumerate(range(...), start=1)]:
    [idx] is the running index, [blocks] what is left of the range. *)
Fixpoint scan_loop (address : string) (show_progress_every : Z)
    (idx : Z) (blocks : list Z) (last_progress : Time)
    (results : list entry) : Py (list entry) :=
  match blocks with
  | [] => mret results
  | block :: rest =>
      now ← time_time;
      due ← (if progress_due E now last_progress then mret true
             else m ← py_mod idx show_progress_every; mret (m =? 0));
      last_progress' ← (if due : bool
                        then print (OutChecking block);; time_time
                        else mret last_progress);
      h ← try_except is_Exception (codehash_at address block)
            (λ e, print (OutWarning block e);; mret None);
      scan_loop address show_progress_every (idx + 1) rest last_progress'
        (results ++ [(block, h)])
  end.

Definition default_show_progress_every : Z := 25.

Definition scan_codehash_timeline (address : string)
    (start_block end_block step : Z) (show_progress_every : Z)
    : Py (list entry) :=
  last_progress ← time_time;
  blocks ← range start_block (end_block + 1) step;
  scan_loop address show_progress_every 1 blocks last_progress [].

(** ** The scan under an interrupt *)

(** The source gives the scan nothing to be told to stop with; what the
    user of the command line has is SIGINT.  CPython delivers a pending
    SIGINT to the running code by raising [KeyboardInterrupt] between two
    of its instructions.  [scan_loop_sigint] is the loop of [scan_loop] with
    that delivery where the [for] statement of line 44 starts a pass:
    [sigint k] says that the interrupt is pending there when [results] holds
    [k] entries.  The source has no handler for it: the [for] statement is
    outside the [try] of line 48, and [KeyboardInterrupt] is no
    [Exception]. *)
Fixpoint scan_loop_sigint (sigint : nat → bool) (address : string)
    (show_progress_every : Z) (idx : Z) (blocks : list Z)
    (last_progress : Time) (results : list entry) : Py (list entry) :=
  match blocks with
  | [] => mret results
  | block :: rest =>
      if sigint (length results) then raise KeyboardInterrupt
      else
        now ← time_time;
        due ← (if progress_due E now last_progress then mret true
               else m ← py_mod idx show_progress_every; mret (m =? 0));
        last_progress' ← (if due : bool
                          then print (OutChecking block);; time_time
                          else mret last_progress);
        h ← try_except is_Exception (codehash_at address block)
              (λ e, print (OutWarning block e);; mret None);
        scan_loop_sigint sigint address show_progress_every (idx + 1) rest
          last_progress' (results ++ [(block, h)])
  end.

Definition scan_codehash_timeline_sigint (sigint : nat → bool)
    (address : string) (start_block end_block step : Z)
    (show_progress_every : Z) : Py (list entry) :=
  last_progress ← time_time;
  blocks ← range start_block (end_block + 1) step;
  scan_loop_sigint sigint address show_progress_every 1 blocks
    last_progress [].

End Program.

(** ** [summarize_changes] *)

(** The variable [prev]: the [object()] sentinel, or a hash-or-[None] seen
    before.  A [str] or [None] never equals the sentinel. *)
Inductive prev_hash : Type :=
  | Sentinel
  | Seen (h : option string).

(** [h != prev]. *)
Definition differs (h : option string) (prev : prev_hash) : bool :=
  match prev with
  | Sentinel => true
  | Seen p => negb (bool_decide (h = p))
  end.

Fixpoint summarize_loop (timeline : list entry) (prev : prev_hash)
    (changes : list entry) : list entry :=
  match timeline with
  | [] => changes
  | (block, h) :: rest =>
      if differs h prev
      then summarize_loop rest (Seen h) (changes ++ [(block, h)])
      else summarize_loop rest prev changes
  end.

Definition summarize_changes (timeline : list entry) : list entry :=
  summarize_loop timeline Sentinel [].

(** ** The verdict of [main] *)

(** [{h for _, h in timeline if h is not None}]. *)
Definition hash_set (timeline : list entry) : gset string :=
  list_to_set (omap snd timeline).

(** [sorted(...)] of that set: strings in their lexicographic order. *)
Definition unique_hashes (timeline : list entry) : list string :=
  merge_sort String.le (elements (hash_set timeline)).

(** [len(unique_hashes) > 1]. *)
Definition changed (timeline : list entry) : bool :=
  1 <? Z.of_nat (length (unique_hashes timeline)).

(** ** [main] *)

(** The namespace that [parse_args] returns. *)
Record args : Type := Args {
  a_rpc : string;
  a_address : string;
  a_from_block : Z;
  a_to_block : Z;
  a_step : Z;
  a_only_changes : bool;
  a_json : bool;
  a_timeout : Z
}.

Section Main.
Context {Time : Type}.
Variable E : env Time.

Abbreviation Py := (Py Time).

Definition to_checksum (addr : string) : Py string :=
  if is_address E addr then mret (to_checksum_address E addr)
  else raise (ValueError ("Invalid Ethereum address: " +:+ addr)).

(** [w3.eth.chain_id]: the node answers or the call raises. *)
Definition eth_chain_id : Py Z :=
  match chain_id E with
  | Some id => mret id
  | None => raise (RpcFailure "chain_id")
  end.

(** [args.rpc.startswith(("http://", "https://"))]. *)
Definition rpc_is_http (rpc : string) : bool :=
  String.prefix "http://" rpc || String.prefix "https://" rpc.

(** [for block, h in to_print: print(...)]. *)
Fixpoint print_entries (to_print : list entry) : Py unit :=
  match to_print with
  | [] => mret tt
  | (block, h) :: rest => print (OutEntry block h);; print_entries rest
  end.

Definition when (b : bool) (m : Py unit) : Py unit :=
  if b then m else mret tt.

Definition main (a : args) : Py unit :=
  when (negb (rpc_is_http (a_rpc a)))
    (print OutInvalidRpc;; sys_exit 1);;
  when (a_to_block a <? a_from_block a)
    (print OutBadRange;; sys_exit 1);;
  when (a_step a <=? 0)
    (print OutBadStep;; sys_exit 1);;
  address ← try_except is_ValueError (to_checksum (a_address a))
               (λ e, print (OutBadAddress e);; sys_exit 1);
  when (negb (is_connected E))
    (print OutNoConnection;; sys_exit 1);;
  print OutBanner;;
  try_except is_Exception (id ← eth_chain_id; print (OutChainId id))
    (λ _, mret tt);;
  print (OutRpc (a_rpc a));;
  print (OutAddress address);;
  print (OutRange (a_from_block a) (a_to_block a) (a_step a));;
  t0 ← time_time E;
  timeline ← scan_codehash_timeline E address (a_from_block a)
                (a_to_block a) (a_step a) default_show_progress_every;
  let changes := summarize_changes timeline in
  t1 ← time_time E;
  print OutSummary;;
  print_entries (if a_only_changes a then changes else timeline);;
  let unique := unique_hashes timeline in
  let verdict := changed timeline in
  print (if verdict then OutChanged else OutUnchanged);;
  print (OutCompleted t0 t1);;
  when (a_json a)
    (id ← try_except is_Exception (i ← eth_chain_id; mret (Some i))
             (λ _, mret None);
     print (OutJson (Report (a_rpc a) id address (a_from_block a)
                       (a_to_block a) (a_step a) timeline changes unique
                       verdict (t0, t1))));;
  sys_exit (if verdict then 2 else 0).

End Main.

(** * Definitions for the statements

    What follows is not program text: the change points as the
    specification words them, and names for what a run of the scan looks at,
    queries and prints. *)

(** The change points in the words of the specification: the first entry is
    emitted unconditionally, and every later entry is emitted when its
    hash-or-absence differs from that of the entry immediately before it.
    [emit_after prior rest] walks [rest] with [prior] the hash-or-absence of
    the entry just passed, emitted or not. *)
Fixpoint emit_after (prior : option string) (rest : list entry) : list entry :=
  match rest with
  | [] => []
  | (block, h) :: rest' =>
      if decide (h = prior) then emit_after h rest'
      else (block, h) :: emit_after h rest'
  end.

Definition change_points_spec (timeline : list entry) : list entry :=
  match timeline with
  | [] => []
  | (block, h) :: rest => (block, h) :: emit_after h rest
  end.

(** The same, entry by entry: every entry is paired with the
    hash-or-absence of its immediate predecessor ([None] for the first entry,
    which has no predecessor), and the entries that differ from it are kept. *)
Definition with_predecessor (timeline : list entry)
    : list (entry * option (option string)) :=
  zip timeline (None :: (Some ∘ snd <$> timeline)).

Definition change_points_pairwise (timeline : list entry) : list entry :=
  (filter (λ p, p.2 ≠ Some p.1.2) (with_predecessor timeline)).*1.

(** No two neighbours carry the same hash-or-absence. *)
Fixpoint adjacent_distinct (l : list entry) : Prop :=
  match l with
  | e1 :: rest =>
      match rest with
      | e2 :: _ => e1.2 ≠ e2.2 ∧ adjacent_distinct rest
      | [] => True
      end
  | [] => True
  end.

(** The heights [range(start_block, end_block + 1, step)] runs through. *)
Definition heights (start_block end_block step : Z) : list Z :=
  (λ i : nat, start_block + Z.of_nat i * step)
    <$> seq 0 (Z.to_nat (range_length start_block (end_block + 1) step)).

(** The lines of the timeline summary among printed lines. *)
Definition listed {Time} (out : list (output Time)) : list entry :=
  omap (λ o, match o with OutEntry block h => Some (block, h) | _ => None end)
       out.

(** The warnings among printed lines, as (block, exception) pairs. *)
Definition warned {Time} (out : list (output Time)) : list (Z * exn) :=
  omap (λ o, match o with OutWarning block e => Some (block, e) | _ => None end)
       out.

(** What one pass of the loop body leaves in the timeline for [block]:
    the hash of the code, or [None] when there is no code and also when
    [get_code] raised. *)
Definition observed {Time} (E : env Time) (address : string) (block : Z)
    : option string :=
  match get_code E address block with
  | inl _ => None
  | inr code =>
      if no_code code then None else Some (keccak_hex E (default [] code))
  end.

(** The exception the loop body catches at [block], if any. *)
Definition failure {Time} (E : env Time) (address : string) (block : Z)
    : option (Z * exn) :=
  match get_code E address block with
  | inl cause => Some (block, RuntimeError block (RpcFailure cause))
  | inr _ => None
  end.

(** The progress report of one pass: it reads the clock, may print one
    line, and neither warns nor queries the node.  It raises only when
    [show_progress_every] is zero. *)
Definition progress {Time} (E : env Time)
    (show_progress_every idx block : Z) (last_progress : Time)
    : Py Time Time :=
  now ← time_time E;
  due ← (if progress_due E now last_progress then mret true
         else m ← py_mod idx show_progress_every; mret (m =? 0));
  if due : bool then print (OutChecking block);; time_time E
  else mret last_progress.

(** The line [main] prints when it turns the arguments down for their
    range.  The URL is looked at first, then the bounds, then the step. *)
Definition rejection {Time} (a : args) : output Time :=
  if negb (rpc_is_http (a_rpc a)) then OutInvalidRpc
  else if a_to_block a <? a_from_block a then OutBadRange
  else OutBadStep.

(** The heights with a progress line among printed lines. *)
Definition checked {Time} (out : list (output Time)) : list Z :=
  omap (λ o, match o with OutChecking block => Some block | _ => None end) out.

(** The two kinds of line that [scan_codehash_timeline] prints. *)
Definition is_scan_line {Time} (o : output Time) : bool :=
  match o with
  | OutChecking _ | OutWarning _ _ => true
  | _ => false
  end.

(** The line of the first check of [main] that fails, in the order in which
    [main] makes them: the URL, the bounds, the step, the address, the
    connection. *)
Definition first_failure {Time} (E : env Time) (a : args)
    : option (output Time) :=
  if negb (rpc_is_http (a_rpc a)) then Some OutInvalidRpc
  else if a_to_block a <? a_from_block a then Some OutBadRange
  else if a_step a <=? 0 then Some OutBadStep
  else if negb (is_address E (a_address a))
  then Some (OutBadAddress
               (ValueError ("Invalid Ethereum address: " +:+ a_address a)))
  else if negb (is_connected E) then Some OutNoConnection
  else None.



(** How many samples a scan has taken when the first interrupt reaches it,
    with [taken] samples done and [left] more to take; [None] when none
    arrives before the last sample. *)
Fixpoint first_sigint (sigint : nat → bool) (taken left : nat) : option nat :=
  match left with
  | O => None
  | S left' =>
      if sigint taken then Some taken
      else first_sigint sigint (S taken) left'
  end.

(** * A node to run the program against *)

Module Demo.

(** No code below height 100, one bytecode from there on, another one from
    height 175 on; the node cannot serve height 150. *)
Definition node (address : string) (block : Z) : string + option bytes :=
  if block <? 100 then inr (Some [])
  else if block =? 150 then inl "missing trie node"%string
  else if block <? 175 then inr (Some [Byte.x60; Byte.x80])
  else inr (Some [Byte.x60; Byte.x40]).

(** Stands in for [Web3.keccak(code).hex()]: any function of the bytes
    will do for the runs below, and this one writes them out in hexadecimal. *)
Definition digest (code : bytes) : string :=
  HexString.of_N (foldl (λ acc b, 256 * acc + Byte.to_N b)%N 0%N code).

(** The clock ticks once per reading; progress is due after two ticks. *)
Definition world_env : env nat :=
  Env (λ _, true) (λ s, s) digest node true (Some 1)
      (λ n, n) (λ now last, (last + 2 <=? now)%nat).

Definition address : string := "0x00000000219ab540356cBB839Cbe05303d7705Fa".

(** The world before the program has done anything. *)
Definition boot : world nat := start_world.

Definition cli (from_block to_block step : Z) : args :=
  Args "https://node.example" address from_block to_block step false true 30.

End Demo.

(** The same world with another answer of the node at one height. *)
Definition with_code {Time} (E : env Time) (address : string) (block : Z)
    (answer : string + option bytes) : env Time :=
  Env (is_address E) (to_checksum_address E) (keccak_hex E)
      (λ a b, if decide (a = address ∧ b = block) then answer
              else get_code E a b)
      (is_connected E) (chain_id E) (clock E) (progress_due E).

(** * Properties of [summarize_changes] *)

Section SummarizeFacts.
Implicit Types (timeline rest changes : list entry) (h p : option string).

(** Once a hash has been seen, [prev] is always the hash of the entry just
    before the one under inspection: it is only left alone when the entry
    repeats it. *)
Lemma summarize_loop_Seen rest p changes :
  summarize_loop rest (Seen p) changes = changes ++ emit_after p rest.
Proof.
  revert p changes.
  induction rest as [|[block h] rest IH]; intros p changes; simpl.
  - by rewrite app_nil_r.
  - destruct (decide (h = p)) as [->|Hne].
    + rewrite bool_decide_true by done. simpl. apply IH.
    + rewrite bool_decide_false by done. simpl.
      rewrite IH, <- app_assoc. done.
Qed.

Lemma summarize_changes_unfold timeline :
  summarize_changes timeline = change_points_spec timeline.
Proof.
  destruct timeline as [|[block h] rest]; [done|].
  unfold summarize_changes. simpl. apply summarize_loop_Seen.
Qed.

Lemma emit_after_pairwise p rest :
  emit_after p rest
  = (filter (λ q : entry * option (option string), q.2 ≠ Some q.1.2)
       (zip rest (Some p :: (Some ∘ snd <$> rest)))).*1.
Proof.
  revert p. induction rest as [|[block h] rest IH]; intros p; [done|].
  simpl. rewrite filter_cons. simpl.
  destruct (decide (h = p)) as [->|Hne].
  - rewrite decide_False by (by intros []). apply IH.
  - rewrite decide_True by congruence. csimpl. f_equal. apply IH.
Qed.

Lemma change_points_spec_pairwise timeline :
  change_points_spec timeline = change_points_pairwise timeline.
Proof.
  destruct timeline as [|[block h] rest]; [done|].
  unfold change_points_pairwise, with_predecessor. simpl. f_equal.
  apply emit_after_pairwise.
Qed.

Lemma emit_after_sublist p rest : emit_after p rest `sublist_of` rest.
Proof.
  revert p. induction rest as [|[block h] rest IH]; intros p; simpl.
  - constructor.
  - destruct (decide (h = p)).
    + by apply sublist_cons.
    + by apply sublist_skip.
Qed.

(** What [emit_after] emits first differs from [prior]. *)
Lemma emit_after_head p rest e :
  head (emit_after p rest) = Some e → e.2 ≠ p.
Proof.
  revert p. induction rest as [|[block h] rest IH]; intros p; simpl; [done|].
  destruct (decide (h = p)) as [->|Hne].
  - apply IH.
  - simpl. by intros [= <-].
Qed.

Lemma emit_after_adjacent_distinct p rest :
  adjacent_distinct (emit_after p rest).
Proof.
  revert p. induction rest as [|[block h] rest IH]; intros p; simpl; [done|].
  destruct (decide (h = p)) as [->|Hne]; [apply IH|].
  specialize (IH h). pose proof (emit_after_head h rest) as Hhd.
  destruct (emit_after h rest) as [|e2 l]; simpl; [done|].
  split; [|done]. intros Heq. by apply (Hhd e2).
Qed.

Lemma change_points_spec_adjacent_distinct timeline :
  adjacent_distinct (change_points_spec timeline).
Proof.
  destruct timeline as [|[block h] rest]; simpl; [done|].
  pose proof (emit_after_adjacent_distinct h rest) as Had.
  pose proof (emit_after_head h rest) as Hhd.
  destruct (emit_after h rest) as [|e2 l]; [done|].
  split; [|done]. intros Heq. by apply (Hhd e2).
Qed.

(** On a list without repeated neighbours nothing is dropped. *)
Lemma emit_after_id p rest :
  adjacent_distinct rest →
  (∀ e, head rest = Some e → e.2 ≠ p) →
  emit_after p rest = rest.
Proof.
  revert p. induction rest as [|[block h] rest IH]; intros p Had Hhd; [done|].
  simpl. rewrite decide_False by (by apply (Hhd (block, h))).
  f_equal. apply IH.
  - destruct rest; [done|]. apply Had.
  - intros e He. destruct rest as [|e2 l]; simplify_eq/=.
    intros Heq. by destruct Had as [Hne _].
Qed.

Lemma change_points_spec_id timeline :
  adjacent_distinct timeline → change_points_spec timeline = timeline.
Proof.
  destruct timeline as [|[block h] rest]; [done|]. intros Had. simpl.
  f_equal. apply emit_after_id.
  - destruct rest; [done|]. apply Had.
  - intros e He. destruct rest as [|e2 l]; simplify_eq/=.
    intros Heq. by destruct Had as [Hne _].
Qed.

(** The fixed points of [summarize_changes] are exactly the timelines
    without repeated neighbours. *)
Lemma summarize_changes_fixed_iff timeline :
  summarize_changes timeline = timeline ↔ adjacent_distinct timeline.
Proof.
  rewrite summarize_changes_unfold. split.
  - intros <-. apply change_points_spec_adjacent_distinct.
  - apply change_points_spec_id.
Qed.

End SummarizeFacts.

(** The upgrade scenario of the specification: hash A from height 100,
    hash B from height 175, sampled every 25 blocks. *)
Example summarize_changes_upgrade :
  summarize_changes
    [(100, Some "A"); (125, Some "A"); (150, Some "A"); (175, Some "B");
     (200, Some "B")]%string
  = [(100, Some "A"); (175, Some "B")]%string.
Proof. reflexivity. Qed.

(** A hash that returns after an interruption is emitted again: the
    comparison is with the neighbour, not with everything seen so far. *)
Example summarize_changes_return :
  summarize_changes [(1, Some "A"); (2, None); (3, Some "A")]%string
  = [(1, Some "A"); (2, None); (3, Some "A")]%string.
Proof. reflexivity. Qed.

(** The timeline of an address that never had code: one change point, the
    first entry. *)
Example summarize_changes_no_code :
  summarize_changes [(100, None); (150, None); (200, None)] = [(100, None)].
Proof. reflexivity. Qed.

(** C1: for every timeline, [summarize_changes] returns exactly the entries
    obtained by walking the timeline in order, emitting the first entry
    unconditionally and then every entry whose hash-or-absence differs from
    that of the entry immediately before it. *)
Theorem C1_summarize_changes_adjacent_pairwise (timeline : list entry) :
  summarize_changes timeline = change_points_spec timeline
  ∧ summarize_changes timeline = change_points_pairwise timeline.
Proof.
  split; [apply summarize_changes_unfold|].
  rewrite summarize_changes_unfold. apply change_points_spec_pairwise.
Qed.

(** C6: for every timeline, the change points are an order-preserving
    subsequence of the timeline, and they start with the timeline's first
    entry (so with its height) whenever there is one. *)
Theorem C6_change_points_subsequence (timeline : list entry) :
  summarize_changes timeline `sublist_of` timeline
  ∧ head (summarize_changes timeline) = head timeline
  ∧ fst <$> head (summarize_changes timeline) = fst <$> head timeline.
Proof.
  rewrite summarize_changes_unfold.
  destruct timeline as [|[block h] rest]; simpl.
  - split; [constructor|done].
  - split; [|done]. apply sublist_skip, emit_after_sublist.
Qed.

(** C10: [summarize_changes] is idempotent, its output never has two
    neighbours with the same hash-or-absence, and the empty timeline gives
    the empty sequence. *)
Theorem C10_summarize_changes_idempotent (timeline : list entry) :
  summarize_changes (summarize_changes timeline) = summarize_changes timeline
  ∧ adjacent_distinct (summarize_changes timeline)
  ∧ summarize_changes [] = [].
Proof.
  assert (adjacent_distinct (summarize_changes timeline)) as Had.
  { rewrite summarize_changes_unfold.
    apply change_points_spec_adjacent_distinct. }
  split; [|split; [done|reflexivity]].
  by apply summarize_changes_fixed_iff.
Qed.

(** * Properties of the verdict *)

Section VerdictFacts.
Implicit Types (timeline : list entry) (h : string).

Lemma elem_of_hash_set timeline h :
  h ∈ hash_set timeline ↔ ∃ block, (block, Some h) ∈ timeline.
Proof.
  unfold hash_set. rewrite elem_of_list_to_set, list_elem_of_omap. split.
  - intros ([block o] & Hin & Ho). simpl in Ho. subst o. by exists block.
  - intros [block Hin]. by exists (block, Some h).
Qed.

(** Sorting does not change how many hashes there are. *)
Lemma length_unique_hashes timeline :
  length (unique_hashes timeline) = size (hash_set timeline).
Proof.
  unfold unique_hashes. by rewrite merge_sort_Permutation.
Qed.

Lemma unique_hashes_sorted timeline :
  Sorted String.le (unique_hashes timeline).
Proof. apply (Sorted_merge_sort String.le). Qed.

Lemma elem_of_unique_hashes timeline h :
  h ∈ unique_hashes timeline ↔ ∃ block, (block, Some h) ∈ timeline.
Proof.
  unfold unique_hashes.
  by rewrite merge_sort_Permutation, elem_of_elements, elem_of_hash_set.
Qed.

(** A finite set has more than one element exactly when it has two
    different ones. *)
Lemma size_gt_1_iff (X : gset string) :
  (1 < size X)%nat ↔ ∃ x y, x ∈ X ∧ y ∈ X ∧ x ≠ y.
Proof.
  split.
  - intros Hsz. unfold size, set_size in Hsz. simpl in Hsz.
    pose proof (NoDup_elements X) as Hnd.
    assert (∀ x, x ∈ elements X → x ∈ X) as Hin.
    { intros x. by rewrite elem_of_elements. }
    destruct (elements X) as [|x [|y l]]; simpl in Hsz; [lia..|].
    exists x, y. split; [|split].
    + apply Hin. left.
    + apply Hin. right. left.
    + apply NoDup_cons in Hnd as [Hx _]. intros ->. apply Hx. left.
  - intros (x & y & Hx & Hy & Hne).
    destruct (size X) as [|[|n]] eqn:Hsz; [..|lia].
    + apply size_empty_inv in Hsz. set_solver.
    + destruct Hne. by apply (size_singleton_inv X).
Qed.

Lemma changed_true_iff timeline :
  changed timeline = true ↔
  ∃ b1 h1 b2 h2,
    (b1, Some h1) ∈ timeline ∧ (b2, Some h2) ∈ timeline ∧ h1 ≠ h2.
Proof.
  unfold changed. rewrite length_unique_hashes, Z.ltb_lt.
  rewrite <- (Nat2Z.inj_lt 1), size_gt_1_iff. split.
  - intros (h1 & h2 & [b1 H1]%elem_of_hash_set & [b2 H2]%elem_of_hash_set & Hne).
    by exists b1, h1, b2, h2.
  - intros (b1 & h1 & b2 & h2 & H1 & H2 & Hne).
    exists h1, h2. split; [|split; [|done]]; apply elem_of_hash_set; eauto.
Qed.

End VerdictFacts.

(** * Properties of the scan *)

Section ScanFacts.
Context {Time : Type}.
Variable E : env Time.
Implicit Types (w : world Time) (blocks : list Z) (results : list entry).

(** [codehash_at] either returns or raises a [RuntimeError] that wraps
    what [get_code] raised; the query is logged either way. *)
Lemma codehash_at_run address block w :
  codehash_at E address block w =
    (match get_code E address block with
     | inl cause => inl (RuntimeError block (RpcFailure cause))
     | inr _ => inr (observed E address block)
     end,
     World (ticks w) (stdout w) (queries w ++ [(address, block)])).
Proof.
  unfold codehash_at, try_except, eth_get_code, observed, mbind, Py_bind.
  destruct (get_code E address block) as [cause|code]; simpl; [done|].
  by destruct (no_code code).
Qed.

(** The [try]/[except] of the loop body never raises. *)
Lemma fetch_run address block w :
  try_except is_Exception (codehash_at E address block)
    (λ e, print (OutWarning block e);; mret None) w =
    (inr (observed E address block),
     World (ticks w)
       (stdout w ++ match failure E address block with
                    | Some (b, e) => [OutWarning b e]
                    | None => []
                    end)
       (queries w ++ [(address, block)])).
Proof.
  unfold try_except at 1. rewrite codehash_at_run.
  unfold observed, failure.
  destruct (get_code E address block) as [cause|code]; simpl.
  - done.
  - by rewrite app_nil_r.
Qed.

Lemma progress_run show_progress_every idx block last_progress w :
  show_progress_every ≠ 0 →
  ∃ last' w' out,
    progress E show_progress_every idx block last_progress w = (inr last', w')
    ∧ stdout w' = stdout w ++ out ∧ warned out = []
    ∧ queries w' = queries w.
Proof.
  intros Hspe. unfold progress, mbind, Py_bind, time_time, py_mod; simpl.
  destruct (progress_due E _ _); simpl.
  - eexists _, _, [OutChecking block]. by split_and!.
  - rewrite (proj2 (Z.eqb_neq _ _) Hspe). unfold mret, Py_ret; simpl.
    destruct (_ =? 0); simpl.
    + eexists _, _, [OutChecking block]. by split_and!.
    + eexists _, _, []. split_and!; [done| |done..]. by rewrite app_nil_r.
Qed.

Lemma progress_zero idx block last_progress w :
  progress_due E (clock E (ticks w)) last_progress = false →
  (progress E 0 idx block last_progress w).1 = inl ZeroDivisionError.
Proof.
  intros Hdue. unfold progress, mbind, Py_bind, time_time, py_mod; simpl.
  by rewrite Hdue.
Qed.

Lemma scan_loop_cons address show_progress_every idx block blocks
    last_progress results w :
  scan_loop E address show_progress_every idx (block :: blocks)
    last_progress results w =
  match progress E show_progress_every idx block last_progress w with
  | (inl e, w1) => (inl e, w1)
  | (inr last', w1) =>
      match try_except is_Exception (codehash_at E address block)
              (λ e, print (OutWarning block e);; mret None) w1 with
      | (inl e, w2) => (inl e, w2)
      | (inr h, w2) =>
          scan_loop E address show_progress_every (idx + 1) blocks last'
            (results ++ [(block, h)]) w2
      end
  end.
Proof.
  simpl. unfold progress, mbind, Py_bind, time_time, py_mod; simpl.
  destruct (progress_due E _ _); simpl; [done|].
  destruct (show_progress_every =? 0); simpl; [done|].
  unfold mret, Py_ret; simpl. by destruct (_ =? 0).
Qed.

(** The loop runs to the end of [blocks] whatever the node answers: it
    appends one entry per block, queries the node once per block, and
    prints one warning per failed query. *)
Lemma scan_loop_run address show_progress_every idx blocks last_progress
    results w :
  show_progress_every ≠ 0 →
  ∃ w' out,
    scan_loop E address show_progress_every idx blocks last_progress
      results w =
      (inr (results ++ ((λ b, (b, observed E address b)) <$> blocks)), w')
    ∧ stdout w' = stdout w ++ out
    ∧ warned out = omap (failure E address) blocks
    ∧ queries w' = queries w ++ ((λ b, (address, b)) <$> blocks).
Proof.
  intros Hspe. revert idx last_progress results w.
  induction blocks as [|block blocks IH]; intros idx last_progress results w.
  - exists w, []. simpl. by rewrite !app_nil_r.
  - rewrite scan_loop_cons.
    destruct (progress_run show_progress_every idx block last_progress w Hspe)
      as (last' & w1 & out1 & -> & Hout1 & Hw1 & Hq1).
    rewrite fetch_run.
    edestruct IH as (w' & out & -> & Hout & Hw & Hq).
    exists w', (out1 ++ match failure E address block with
                       | Some (b, e) => [OutWarning b e]
                       | None => []
                       end ++ out).
    simpl in *. split_and!.
    + by rewrite <- app_assoc.
    + rewrite Hout, Hout1, <- !app_assoc. done.
    + unfold warned in *. rewrite !omap_app, Hw1, Hw. simpl.
      by destruct (failure E address block) as [[b e]|].
    + rewrite Hq, Hq1, <- app_assoc. done.
Qed.

Lemma scan_codehash_timeline_run address start_block end_block step
    show_progress_every w :
  step ≠ 0 → show_progress_every ≠ 0 →
  ∃ w' out,
    scan_codehash_timeline E address start_block end_block step
      show_progress_every w =
      (inr ((λ b, (b, observed E address b))
              <$> heights start_block end_block step), w')
    ∧ stdout w' = stdout w ++ out
    ∧ warned out = omap (failure E address) (heights start_block end_block step)
    ∧ queries w' = queries w
         ++ ((λ b, (address, b)) <$> heights start_block end_block step).
Proof.
  intros Hstep Hspe.
  unfold scan_codehash_timeline, mbind, Py_bind, time_time, range; simpl.
  rewrite (proj2 (Z.eqb_neq _ _) Hstep). unfold mret, Py_ret; simpl.
  edestruct (scan_loop_run address show_progress_every 1
               (heights start_block end_block step)) as (w' & out & Hrun & ?);
    [done|].
  unfold heights in Hrun at 1. rewrite Hrun. eauto.
Qed.

End ScanFacts.

(** * Properties of [main] *)

Section MainFacts.
Context {Time : Type}.
Variable E : env Time.
Implicit Types (w : world Time) (a : args).

Lemma print_entries_run (to_print : list entry) w :
  print_entries to_print w =
    (inr tt, World (ticks w)
               (stdout w ++ ((λ e, OutEntry e.1 e.2) <$> to_print))
               (queries w)).
Proof.
  revert w. induction to_print as [|[block h] rest IH]; intros w; simpl.
  - rewrite app_nil_r. by destruct w.
  - unfold mbind, Py_bind, print at 1. simpl. rewrite IH. simpl.
    by rewrite <- app_assoc.
Qed.

(** A range that [main] turns down ends the program with exit code 1
    after one printed line, before the address is looked at, before the
    connection is tried and before the scan is entered. *)
Lemma main_rejects_range a w :
  a_to_block a < a_from_block a ∨ a_step a < 1 →
  main E a w =
    (inl (SystemExit 1),
     World (ticks w) (stdout w ++ [rejection a]) (queries w)).
Proof.
  intros Hbad. unfold main, rejection, when, mbind, Py_bind, sys_exit, raise.
  destruct (rpc_is_http (a_rpc a)); simpl; [|done].
  destruct (Z.ltb_spec (a_to_block a) (a_from_block a)); simpl; [done|].
  destruct (Z.leb_spec (a_step a) 0); simpl; [done|lia].
Qed.

(** With arguments that pass every check, [main] scans the whole range
    and leaves with exit code 2 or 0 according to the verdict. *)
Lemma main_run a w :
  rpc_is_http (a_rpc a) = true →
  a_from_block a ≤ a_to_block a → 1 ≤ a_step a →
  is_address E (a_address a) = true → is_connected E = true →
  let address := to_checksum_address E (a_address a) in
  let timeline := (λ b, (b, observed E address b))
                    <$> heights (a_from_block a) (a_to_block a) (a_step a) in
  ∃ w',
    main E a w = (inl (SystemExit (if changed timeline then 2 else 0)), w')
    ∧ queries w' = queries w
        ++ ((λ b, (address, b))
              <$> heights (a_from_block a) (a_to_block a) (a_step a)).
Proof.
  intros Hrpc Hrange Hstep Haddr Hconn address timeline.
  unfold main, when, to_checksum, try_except, eth_chain_id.
  rewrite Hrpc, Haddr, Hconn.
  rewrite (proj2 (Z.ltb_ge _ _) Hrange).
  rewrite (proj2 (Z.leb_gt _ _)) by lia.
  unfold mbind, Py_bind, mret, Py_ret, raise, print, time_time,
    default_show_progress_every; simpl.
  destruct (chain_id E) as [id|]; simpl.
  all: match goal with
  | |- context [scan_codehash_timeline E ?ad ?s ?e ?st ?spe ?w0] =>
      destruct (scan_codehash_timeline_run E ad s e st spe w0)
        as (w1 & out & Hrun & Hout & Hwarn & Hq); [lia|done|]
  end.
  all: subst address timeline.
  all: rewrite Hrun; simpl; rewrite print_entries_run; simpl.
  all: destruct (a_json a); simpl; eexists; (split; [reflexivity|]); simpl.
  all: by rewrite Hq.
Qed.

End MainFacts.

(** * The sampled heights *)

Section HeightsFacts.
Implicit Types (start_block end_block step : Z).

Lemma range_length_valid start_block end_block step :
  start_block ≤ end_block → 1 ≤ step →
  range_length start_block (end_block + 1) step
  = (end_block - start_block) / step + 1.
Proof.
  intros Hrange Hstep. unfold range_length.
  rewrite (proj2 (Z.ltb_lt 0 step)) by lia.
  rewrite (proj2 (Z.ltb_lt start_block (end_block + 1))) by lia.
  do 2 f_equal. lia.
Qed.

Lemma length_heights start_block end_block step :
  start_block ≤ end_block → 1 ≤ step →
  Z.of_nat (length (heights start_block end_block step))
  = (end_block - start_block) / step + 1.
Proof.
  intros Hrange Hstep. unfold heights.
  rewrite length_fmap, length_seq, range_length_valid by done.
  apply Z2Nat.id.
  assert (0 ≤ (end_block - start_block) / step)
    by (apply Z.div_pos; lia).
  lia.
Qed.

Lemma heights_seq start_block end_block step :
  heights start_block end_block step
  = (λ i : nat, start_block + Z.of_nat i * step)
      <$> seq 0 (length (heights start_block end_block step)).
Proof. unfold heights. by rewrite length_fmap, length_seq. Qed.

Lemma head_heights start_block end_block step :
  start_block ≤ end_block → 1 ≤ step →
  head (heights start_block end_block step) = Some start_block.
Proof.
  intros Hrange Hstep. pose proof (length_heights _ _ _ Hrange Hstep) as Hlen.
  assert (0 ≤ (end_block - start_block) / step)
    by (apply Z.div_pos; lia).
  rewrite heights_seq.
  destruct (length (heights start_block end_block step)); [lia|].
  simpl. f_equal. lia.
Qed.

Lemma heights_le_end start_block end_block step :
  start_block ≤ end_block → 1 ≤ step →
  Forall (λ b, b ≤ end_block) (heights start_block end_block step).
Proof.
  intros Hrange Hstep. pose proof (length_heights _ _ _ Hrange Hstep) as Hlen.
  rewrite heights_seq. apply Forall_fmap, Forall_forall.
  intros i [_ Hi]%elem_of_seq. simpl in *.
  pose proof (Z.mul_div_le (end_block - start_block) step) as Hdiv.
  nia.
Qed.

Lemma arithmetic_progression_sorted start_block step (k n : nat) :
  1 ≤ step →
  StronglySorted Z.lt
    ((λ i : nat, start_block + Z.of_nat i * step) <$> seq k n).
Proof.
  intros Hstep. revert k. induction n as [|n IH]; intros k; simpl.
  - constructor.
  - constructor; [apply IH|].
    apply Forall_fmap, Forall_forall. intros i [Hi _]%elem_of_seq.
    simpl. nia.
Qed.

Lemma heights_sorted start_block end_block step :
  1 ≤ step → StronglySorted Z.lt (heights start_block end_block step).
Proof. apply arithmetic_progression_sorted. Qed.

(** With a positive step and the bounds the wrong way round the range is
    empty. *)
Lemma heights_empty start_block end_block step :
  end_block < start_block → 1 ≤ step →
  heights start_block end_block step = [].
Proof.
  intros Hrange Hstep. unfold heights, range_length.
  rewrite (proj2 (Z.ltb_lt 0 step)) by lia.
  by rewrite (proj2 (Z.ltb_ge start_block (end_block + 1))) by lia.
Qed.

Lemma timeline_heights {A} (f : Z → A) (l : list Z) :
  ((λ b, (b, f b)) <$> l).*1 = l.
Proof. induction l as [|b l IH]; csimpl; [done|by f_equal]. Qed.

End HeightsFacts.

(** * The claims about the verdict and the scan *)

(** The two scenarios of the specification: an address without code at
    any sampled height, and the upgrade from one bytecode to another. *)
Example changed_no_code :
  changed [(100, None); (150, None); (200, None)] = false.
Proof. vm_compute. reflexivity. Qed.

Example changed_upgrade :
  changed [(100, Some "A"); (125, Some "A"); (150, Some "A");
           (175, Some "B"); (200, Some "B")]%string = true.
Proof. vm_compute. reflexivity. Qed.

(** C2: the verdict is [true] exactly when the timeline holds two entries
    with code whose digests differ; entries without code do not count, so a
    timeline without any code, or with one version of the code only, gives
    [false]. *)
Theorem C2_changed_iff_two_digests (timeline : list entry) :
  (changed timeline = true ↔
     ∃ b1 h1 b2 h2,
       (b1, Some h1) ∈ timeline ∧ (b2, Some h2) ∈ timeline ∧ h1 ≠ h2)
  ∧ (Forall (λ e, e.2 = None) timeline → changed timeline = false)
  ∧ (∀ h, Forall (λ e, e.2 = None ∨ e.2 = Some h) timeline →
          changed timeline = false).
Proof.
  split; [apply changed_true_iff|]. split.
  - intros Hnone. apply not_true_is_false. rewrite changed_true_iff.
    intros (b1 & h1 & _ & _ & Hin & _).
    rewrite Forall_forall in Hnone. by apply Hnone in Hin.
  - intros h Hone. apply not_true_is_false. rewrite changed_true_iff.
    intros (b1 & h1 & b2 & h2 & H1 & H2 & Hne).
    rewrite Forall_forall in Hone.
    apply Hone in H1 as [?|?], H2 as [?|?]; simplify_eq/=.
Qed.

(** C3: for [start_block ≤ end_block] and [step ≥ 1] the scan returns a
    timeline of [floor((end_block - start_block) / step) + 1] entries, whose
    heights are [start_block], [start_block + step], [start_block + 2·step],
    and so on: they begin at [start_block], increase strictly and stay at or
    below [end_block]. *)
Theorem C3_scan_samples_every_stride {Time} (E : env Time) (address : string)
    (start_block end_block step show_progress_every : Z) (w : world Time) :
  start_block ≤ end_block → 1 ≤ step → show_progress_every ≠ 0 →
  ∃ timeline w',
    scan_codehash_timeline E address start_block end_block step
      show_progress_every w = (inr timeline, w')
    ∧ Z.of_nat (length timeline) = (end_block - start_block) / step + 1
    ∧ timeline.*1 = (λ i : nat, start_block + Z.of_nat i * step)
                      <$> seq 0 (length timeline)
    ∧ head timeline.*1 = Some start_block
    ∧ StronglySorted Z.lt timeline.*1
    ∧ Forall (λ b, b ≤ end_block) timeline.*1.
Proof.
  intros Hrange Hstep Hspe.
  destruct (scan_codehash_timeline_run E address start_block end_block step
              show_progress_every w) as (w' & out & Hrun & _); [lia|done|].
  eexists _, w'. split; [exact Hrun|].
  rewrite timeline_heights, length_fmap. split_and!.
  - by apply length_heights.
  - apply heights_seq.
  - by apply head_heights.
  - by apply heights_sorted.
  - by apply heights_le_end.
Qed.

(** C3 on the demo node: heights 100 to 200, every 25 blocks. *)
Lemma C3_witness :
  100 ≤ 200 ∧ 1 ≤ 25 ∧ 25 ≠ 0 ∧
  ∃ timeline w',
    scan_codehash_timeline Demo.world_env Demo.address 100 200 25 25
      Demo.boot = (inr timeline, w')
    ∧ Z.of_nat (length timeline) = (200 - 100) / 25 + 1
    ∧ timeline.*1 = (λ i : nat, 100 + Z.of_nat i * 25)
                      <$> seq 0 (length timeline)
    ∧ head timeline.*1 = Some 100
    ∧ StronglySorted Z.lt timeline.*1
    ∧ Forall (λ b, b ≤ 200) timeline.*1.
Proof.
  split; [lia|]. split; [lia|]. split; [lia|].
  apply (C3_scan_samples_every_stride Demo.world_env Demo.address
           100 200 25 25 Demo.boot); lia.
Defined.

(** C4: a query that fails at one height does not stop the scan.  The scan
    returns a timeline with one entry for every sampled height, in ascending
    order; the entry of a height whose query failed is [None], and every
    entry is what the node's answer at its own height makes it. *)
Theorem C4_fetch_failure_is_absorbed {Time} (E : env Time) (address : string)
    (start_block end_block step show_progress_every : Z) (w : world Time) :
  start_block ≤ end_block → 1 ≤ step → show_progress_every ≠ 0 →
  ∃ timeline w',
    scan_codehash_timeline E address start_block end_block step
      show_progress_every w = (inr timeline, w')
    ∧ timeline.*1 = heights start_block end_block step
    ∧ StronglySorted Z.lt timeline.*1
    ∧ timeline = (λ b, (b, observed E address b))
                   <$> heights start_block end_block step
    ∧ (∀ block cause,
         block ∈ heights start_block end_block step →
         get_code E address block = inl cause →
         (block, None) ∈ timeline)
    ∧ queries w' = queries w
        ++ ((λ b, (address, b)) <$> heights start_block end_block step).
Proof.
  intros Hrange Hstep Hspe.
  destruct (scan_codehash_timeline_run E address start_block end_block step
              show_progress_every w) as (w' & out & Hrun & _ & _ & Hq);
    [lia|done|].
  eexists _, w'. split; [exact Hrun|].
  rewrite timeline_heights. split_and!; [done| |done| |done].
  - by apply heights_sorted.
  - intros block cause Hin Hfail. apply list_elem_of_fmap.
    exists block. split; [|done]. unfold observed. by rewrite Hfail.
Qed.

(** C4 on the demo node, whose query at height 150 fails. *)
Lemma C4_witness :
  100 ≤ 200 ∧ 1 ≤ 25 ∧ 25 ≠ 0 ∧
  ∃ timeline w',
    scan_codehash_timeline Demo.world_env Demo.address 100 200 25 25
      Demo.boot = (inr timeline, w')
    ∧ timeline.*1 = heights 100 200 25
    ∧ StronglySorted Z.lt timeline.*1
    ∧ timeline = (λ b, (b, observed Demo.world_env Demo.address b))
                   <$> heights 100 200 25
    ∧ (∀ block cause,
         block ∈ heights 100 200 25 →
         get_code Demo.world_env Demo.address block = inl cause →
         (block, None) ∈ timeline)
    ∧ queries w' = queries Demo.boot
        ++ ((λ b, (Demo.address, b)) <$> heights 100 200 25).
Proof.
  split; [lia|]. split; [lia|]. split; [lia|].
  apply (C4_fetch_failure_is_absorbed Demo.world_env Demo.address
           100 200 25 25 Demo.boot); lia.
Defined.

(** That run on the demo node, with the failed query at height 150: five
    entries, the third one degraded to [None]. *)
Example scan_demo_timeline :
  (scan_codehash_timeline Demo.world_env Demo.address 100 200 25 25
     Demo.boot).1
  = inr [(100, Some "0x6080"); (125, Some "0x6080"); (150, None);
         (175, Some "0x6040"); (200, Some "0x6040")]%string.
Proof. vm_compute. reflexivity. Qed.

(** C5: when [from_block > to_block] or [step < 1], the program stops with
    exit code 1 after one line that names the rejection, and nothing else
    has happened: no query went to the node and no timeline was built or
    printed.  The rejection is the one for the range unless the URL was
    already turned down. *)
Theorem C5_invalid_range_rejected_before_fetch {Time} (E : env Time)
    (a : args) (w : world Time) :
  a_to_block a < a_from_block a ∨ a_step a < 1 →
  main E a w =
    (inl (SystemExit 1),
     World (ticks w) (stdout w ++ [rejection a]) (queries w))
  ∧ queries (main E a w).2 = queries w
  ∧ rejection a ∈ [@OutInvalidRpc Time; OutBadRange; OutBadStep]
  ∧ (rpc_is_http (a_rpc a) = true →
     rejection a ∈ [@OutBadRange Time; OutBadStep]).
Proof.
  intros Hbad. rewrite (main_rejects_range E a w Hbad). split; [done|].
  split; [done|]. unfold rejection.
  destruct (rpc_is_http (a_rpc a)); simpl.
  - destruct (_ <? _); split; intros; rewrite !elem_of_cons; auto.
  - split; [|done]. rewrite !elem_of_cons. auto.
Qed.

(** C5 on the first scenario of the specification: [from_block = 500],
    [to_block = 100]. *)
Lemma C5_witness :
  (a_to_block (Demo.cli 500 100 100) < a_from_block (Demo.cli 500 100 100)
   ∨ a_step (Demo.cli 500 100 100) < 1) ∧
  (main Demo.world_env (Demo.cli 500 100 100) Demo.boot =
     (inl (SystemExit 1),
      World (ticks Demo.boot)
        (stdout Demo.boot ++ [rejection (Demo.cli 500 100 100)])
        (queries Demo.boot))
   ∧ queries (main Demo.world_env (Demo.cli 500 100 100) Demo.boot).2
     = queries Demo.boot
   ∧ rejection (Demo.cli 500 100 100)
       ∈ [@OutInvalidRpc nat; OutBadRange; OutBadStep]
   ∧ (rpc_is_http (a_rpc (Demo.cli 500 100 100)) = true →
      rejection (Demo.cli 500 100 100) ∈ [@OutBadRange nat; OutBadStep])).
Proof.
  split; [left; simpl; lia|].
  apply (C5_invalid_range_rejected_before_fetch Demo.world_env
           (Demo.cli 500 100 100) Demo.boot).
  left. simpl. lia.
Defined.

(** The two scenarios of the specification, run through [main]. *)
Example main_rejects_reversed_bounds :
  main Demo.world_env (Demo.cli 500 100 100) Demo.boot
  = (inl (SystemExit 1), World 0 [OutBadRange] []).
Proof. vm_compute. reflexivity. Qed.

Example main_rejects_zero_step :
  main Demo.world_env (Demo.cli 100 500 0) Demo.boot
  = (inl (SystemExit 1), World 0 [OutBadStep] []).
Proof. vm_compute. reflexivity. Qed.

(** The checks live in [main]; [scan_codehash_timeline] takes what it is
    given.  With the bounds reversed it returns the empty timeline, with a
    zero step [range] raises, and with a negative step it walks downwards
    and queries the node. *)
Lemma scan_reversed_bounds {Time} (E : env Time) (address : string)
    (start_block end_block step show_progress_every : Z) (w : world Time) :
  end_block < start_block → 1 ≤ step →
  scan_codehash_timeline E address start_block end_block step
    show_progress_every w
  = (inr [], World (S (ticks w)) (stdout w) (queries w)).
Proof.
  intros Hrange Hstep.
  unfold scan_codehash_timeline, mbind, Py_bind, time_time, range; simpl.
  rewrite (proj2 (Z.eqb_neq step 0)) by lia. unfold mret, Py_ret; simpl.
  pose proof (heights_empty start_block end_block step Hrange Hstep) as Hh.
  unfold heights in Hh. by rewrite Hh.
Qed.

Lemma scan_zero_step {Time} (E : env Time) (address : string)
    (start_block end_block show_progress_every : Z) (w : world Time) :
  scan_codehash_timeline E address start_block end_block 0
    show_progress_every w
  = (inl (ValueError "range() arg 3 must not be zero"),
     World (S (ticks w)) (stdout w) (queries w)).
Proof. reflexivity. Qed.

Example scan_negative_step :
  queries (scan_codehash_timeline Demo.world_env Demo.address 500 100 (-100)
             25 Demo.boot).2
  = [(Demo.address, 500); (Demo.address, 400); (Demo.address, 300);
     (Demo.address, 200)].
Proof. vm_compute. reflexivity. Qed.

(** With [show_progress_every = 0] the first pass divides by zero unless the
    clock already asks for a progress line. *)
Example scan_zero_cadence :
  (scan_codehash_timeline Demo.world_env Demo.address 100 200 25 0
     Demo.boot).1
  = inl ZeroDivisionError.
Proof. vm_compute. reflexivity. Qed.

(** * Failed queries and repeated runs *)

Section Degradation.
Context {Time : Type}.
Variable E : env Time.
Implicit Types (address : string) (block b : Z) (cause : string).

(** In the timeline a failed query and an empty bytecode look the same. *)
Lemma observed_failed_or_empty address block cause b :
  observed (with_code E address block (inl cause)) address b
  = observed (with_code E address block (inr (Some []))) address b.
Proof. unfold observed, with_code; simpl. by case_decide. Qed.

Lemma failure_failed address block cause :
  failure (with_code E address block (inl cause)) address block
  = Some (block, RuntimeError block (RpcFailure cause)).
Proof.
  unfold failure, with_code; simpl. by rewrite decide_True.
Qed.

Lemma failure_empty address block b e :
  failure (with_code E address block (inr (Some []))) address b
  ≠ Some (block, e).
Proof.
  unfold failure, with_code; simpl. case_decide as Hb; [done|].
  destruct (get_code E address b); [|done].
  intros [= -> _]. by apply Hb.
Qed.

End Degradation.

(** C7: take two nodes that differ at one sampled height only, where the
    query fails on one and returns empty bytecode on the other.  The two
    scans return the same timeline, and what they print differs: the run
    with the failed query prints a warning for that height, the other run
    prints none. *)
Theorem C7_degraded_entry_is_logged {Time} (E : env Time) (address : string)
    (start_block end_block step show_progress_every block : Z)
    (cause : string) (w : world Time) :
  start_block ≤ end_block → 1 ≤ step → show_progress_every ≠ 0 →
  block ∈ heights start_block end_block step →
  ∃ timeline w1 w2 out1 out2,
    scan_codehash_timeline (with_code E address block (inl cause)) address
      start_block end_block step show_progress_every w = (inr timeline, w1)
    ∧ scan_codehash_timeline (with_code E address block (inr (Some [])))
        address start_block end_block step show_progress_every w
      = (inr timeline, w2)
    ∧ stdout w1 = stdout w ++ out1
    ∧ stdout w2 = stdout w ++ out2
    ∧ (block, RuntimeError block (RpcFailure cause)) ∈ warned out1
    ∧ (∀ e, (block, e) ∉ warned out2)
    ∧ stdout w1 ≠ stdout w2.
Proof.
  intros Hrange Hstep Hspe Hin.
  destruct (scan_codehash_timeline_run
              (with_code E address block (inl cause)) address start_block
              end_block step show_progress_every w)
    as (w1 & out1 & Hrun1 & Hout1 & Hwarn1 & _); [lia|done|].
  destruct (scan_codehash_timeline_run
              (with_code E address block (inr (Some []))) address start_block
              end_block step show_progress_every w)
    as (w2 & out2 & Hrun2 & Hout2 & Hwarn2 & _); [lia|done|].
  assert ((block, RuntimeError block (RpcFailure cause)) ∈ warned out1) as H1.
  { rewrite Hwarn1. apply list_elem_of_omap. exists block.
    split; [done|apply failure_failed]. }
  assert (∀ e, (block, e) ∉ warned out2) as H2.
  { intros e. rewrite Hwarn2. intros (b & _ & Hb)%list_elem_of_omap.
    by apply failure_empty in Hb. }
  eexists _, w1, w2, out1, out2. split_and!; [exact Hrun1| |done..|].
  - rewrite Hrun2. do 2 f_equal. apply list_fmap_ext.
    intros _ b _. f_equal. symmetry. apply observed_failed_or_empty.
  - rewrite Hout1, Hout2. intros ->%app_inv_head. by apply H2 in H1.
Qed.

(** C7 on the demo node, at height 125. *)
Lemma C7_witness :
  100 ≤ 200 ∧ 1 ≤ 25 ∧ 25 ≠ 0 ∧ 125 ∈ heights 100 200 25 ∧
  ∃ timeline w1 w2 out1 out2,
    scan_codehash_timeline
      (with_code Demo.world_env Demo.address 125 (inl "timeout"%string))
      Demo.address 100 200 25 25 Demo.boot = (inr timeline, w1)
    ∧ scan_codehash_timeline
        (with_code Demo.world_env Demo.address 125 (inr (Some [])))
        Demo.address 100 200 25 25 Demo.boot = (inr timeline, w2)
    ∧ stdout w1 = stdout Demo.boot ++ out1
    ∧ stdout w2 = stdout Demo.boot ++ out2
    ∧ (125, RuntimeError 125 (RpcFailure "timeout")) ∈ warned out1
    ∧ (∀ e, (125, e) ∉ warned out2)
    ∧ stdout w1 ≠ stdout w2.
Proof.
  assert (125 ∈ heights 100 200 25) as Hin.
  { vm_compute. right. left. }
  split; [lia|]. split; [lia|]. split; [lia|]. split; [exact Hin|].
  apply (C7_degraded_entry_is_logged Demo.world_env Demo.address
           100 200 25 25 125 "timeout" Demo.boot); [lia|lia|lia|exact Hin].
Defined.

(** What two such runs on the demo node print while scanning: the warning is
    the only difference. *)
Example scan_prints_warning :
  stdout (scan_codehash_timeline
            (with_code Demo.world_env Demo.address 125 (inl "timeout"%string))
            Demo.address 100 150 25 25 Demo.boot).2
  = [OutChecking 125;
     OutWarning 125 (RuntimeError 125 (RpcFailure "timeout"));
     OutWarning 150 (RuntimeError 150 (RpcFailure "missing trie node"))]
  ∧ stdout (scan_codehash_timeline
              (with_code Demo.world_env Demo.address 125 (inr (Some [])))
              Demo.address 100 150 25 25 Demo.boot).2
    = [OutChecking 125;
       OutWarning 150 (RuntimeError 150 (RpcFailure "missing trie node"))].
Proof. split; vm_compute; reflexivity. Qed.

(** The same two nodes under [main]: the summary lists height 125 as
    having no code in both runs, and the report handed to [json.dumps] is the
    same but for the clock; the warning printed during the scan is what
    tells the runs apart. *)
Example main_lists_degraded_as_no_code :
  listed (stdout (main (with_code Demo.world_env Demo.address 125
                          (inl "timeout"%string))
                    (Demo.cli 100 200 25) Demo.boot).2)
  = listed (stdout (main (with_code Demo.world_env Demo.address 125
                            (inr (Some [])))
                      (Demo.cli 100 200 25) Demo.boot).2)
  ∧ listed (stdout (main (with_code Demo.world_env Demo.address 125
                            (inl "timeout"%string))
                      (Demo.cli 100 200 25) Demo.boot).2)
    = [(100, Some "0x6080"); (125, None); (150, None);
       (175, Some "0x6040"); (200, Some "0x6040")]%string
  ∧ warned (stdout (main (with_code Demo.world_env Demo.address 125
                            (inl "timeout"%string))
                      (Demo.cli 100 200 25) Demo.boot).2)
    = [(125, RuntimeError 125 (RpcFailure "timeout"));
       (150, RuntimeError 150 (RpcFailure "missing trie node"))]
  ∧ warned (stdout (main (with_code Demo.world_env Demo.address 125
                            (inr (Some [])))
                      (Demo.cli 100 200 25) Demo.boot).2)
    = [(150, RuntimeError 150 (RpcFailure "missing trie node"))].
Proof. repeat split; vm_compute; reflexivity. Qed.

(** C8: two runs of the scan over the same address, range and step against
    nodes that answer alike return the same timeline, hence the same change
    points and the same verdict, whatever the two clocks read, whatever the
    rule for progress lines is and whatever happened before each run. *)
Theorem C8_scan_deterministic {Time} (E1 E2 : env Time) (address : string)
    (start_block end_block step show_progress_every : Z)
    (w1 w2 : world Time) :
  (∀ b, get_code E1 address b = get_code E2 address b) →
  (∀ code, keccak_hex E1 code = keccak_hex E2 code) →
  start_block ≤ end_block → 1 ≤ step → show_progress_every ≠ 0 →
  ∃ timeline1 timeline2 w1' w2',
    scan_codehash_timeline E1 address start_block end_block step
      show_progress_every w1 = (inr timeline1, w1')
    ∧ scan_codehash_timeline E2 address start_block end_block step
        show_progress_every w2 = (inr timeline2, w2')
    ∧ timeline1 = timeline2
    ∧ summarize_changes timeline1 = summarize_changes timeline2
    ∧ changed timeline1 = changed timeline2.
Proof.
  intros Hcode Hhash Hrange Hstep Hspe.
  destruct (scan_codehash_timeline_run E1 address start_block end_block step
              show_progress_every w1) as (w1' & out1 & Hrun1 & _);
    [lia|done|].
  destruct (scan_codehash_timeline_run E2 address start_block end_block step
              show_progress_every w2) as (w2' & out2 & Hrun2 & _);
    [lia|done|].
  assert ((λ b, (b, observed E1 address b))
            <$> heights start_block end_block step
          = (λ b, (b, observed E2 address b))
              <$> heights start_block end_block step) as Heq.
  { apply list_fmap_ext. intros _ b _. f_equal. unfold observed.
    rewrite Hcode. destruct (get_code E2 address b) as [|code]; [done|].
    by rewrite Hhash. }
  eexists _, _, w1', w2'.
  split; [exact Hrun1|]. split; [exact Hrun2|]. by rewrite Heq.
Qed.

(** C8 on the demo node, the second run with a faster clock, a progress
    line at every height and a world that has already printed. *)
Lemma C8_witness :
  (∀ b, get_code Demo.world_env Demo.address b
        = get_code (Env (λ _, true) (λ s, s) Demo.digest Demo.node true
                      (Some 1) (λ n, 7 * n)%nat (λ _ _, true))
            Demo.address b) ∧
  (∀ code, keccak_hex Demo.world_env code
           = keccak_hex (Env (λ _, true) (λ s, s) Demo.digest Demo.node true
                           (Some 1) (λ n, 7 * n)%nat (λ _ _, true)) code) ∧
  100 ≤ 200 ∧ 1 ≤ 25 ∧ 25 ≠ 0 ∧
  ∃ timeline1 timeline2 w1' w2',
    scan_codehash_timeline Demo.world_env Demo.address 100 200 25 25
      Demo.boot = (inr timeline1, w1')
    ∧ scan_codehash_timeline
        (Env (λ _, true) (λ s, s) Demo.digest Demo.node true
           (Some 1) (λ n, 7 * n)%nat (λ _ _, true))
        Demo.address 100 200 25 25 (World 3 [OutBanner] []) = (inr timeline2, w2')
    ∧ timeline1 = timeline2
    ∧ summarize_changes timeline1 = summarize_changes timeline2
    ∧ changed timeline1 = changed timeline2.
Proof.
  split; [reflexivity|]. split; [reflexivity|].
  split; [lia|]. split; [lia|]. split; [lia|].
  apply (C8_scan_deterministic Demo.world_env
           (Env (λ _, true) (λ s, s) Demo.digest Demo.node true
              (Some 1) (λ n, 7 * n)%nat (λ _ _, true))
           Demo.address 100 200 25 25 Demo.boot (World 3 [OutBanner] []));
    [reflexivity|reflexivity|lia|lia|lia].
Defined.

(** * The whole program on the upgrade scenario *)

(** Exit code 2 and nothing queried but the five sampled heights. *)
Example main_demo_exit :
  (main Demo.world_env (Demo.cli 100 200 25) Demo.boot).1
  = inl (SystemExit 2)
  ∧ queries (main Demo.world_env (Demo.cli 100 200 25) Demo.boot).2
    = [(Demo.address, 100); (Demo.address, 125); (Demo.address, 150);
       (Demo.address, 175); (Demo.address, 200)].
Proof.
  destruct (main_run Demo.world_env (Demo.cli 100 200 25) Demo.boot)
    as (w' & Hrun & Hq); [reflexivity|simpl; lia|simpl; lia|reflexivity..|].
  rewrite Hrun. cbn [fst snd]. rewrite Hq.
  split; [|reflexivity].
  rewrite (proj2 (changed_true_iff _)); [done|].
  exists 100, (Demo.digest [Byte.x60; Byte.x80]),
         175, (Demo.digest [Byte.x60; Byte.x40]).
  split; [|split; [|done]].
  - vm_compute. left.
  - vm_compute. do 3 right. left.
Qed.

(** * Further properties of [summarize_changes] *)

Lemma summarize_changes_sublist (timeline : list entry) :
  summarize_changes timeline `sublist_of` timeline.
Proof.
  rewrite summarize_changes_unfold.
  destruct timeline as [|[block h] rest]; simpl; [constructor|].
  apply sublist_skip, emit_after_sublist.
Qed.

Section SummarizeMore.
Implicit Types (timeline rest front back : list entry) (h p : option string).

Lemma emit_after_nil_iff p rest :
  emit_after p rest = [] ↔ Forall (λ e, e.2 = p) rest.
Proof.
  revert p. induction rest as [|[block h] rest IH]; intros p; simpl.
  - split; [constructor|done].
  - destruct (decide (h = p)) as [->|Hne].
    + rewrite IH. split; [by constructor|by inversion 1].
    + split; [done|]. by inversion 1.
Qed.

(** Whatever [emit_after] passes over without emitting repeats a hash that
    was emitted or given. *)
Lemma emit_after_covers p rest e :
  e ∈ rest → e.2 = p ∨ ∃ e', e' ∈ emit_after p rest ∧ e'.2 = e.2.
Proof.
  revert p. induction rest as [|[block h] rest IH]; intros p Hin.
  - by apply elem_of_nil in Hin.
  - simpl. apply elem_of_cons in Hin as [->|Hin].
    + destruct (decide (h = p)); [by left|].
      right. exists (block, h). split; [left|done].
    + destruct (IH h Hin) as [Heq|(e' & He' & Heq)].
      * destruct (decide (h = p)) as [->|Hne]; [by left|].
        right. exists (block, h). split; [left|done].
      * right. exists e'. split; [|done].
        destruct (decide (h = p)); [done|by right].
Qed.

Lemma emit_after_last p rest :
  default p (snd <$> last (emit_after p rest))
  = default p (snd <$> last rest).
Proof.
  revert p. induction rest as [|[block h] rest IH]; intros p; [done|].
  simpl. destruct (decide (h = p)) as [->|Hne].
  - rewrite IH, last_cons. by destruct (last rest).
  - rewrite !last_cons. specialize (IH h).
    by destruct (last (emit_after h rest)), (last rest).
Qed.

Lemma emit_after_app p front back :
  emit_after p (front ++ back)
  = emit_after p front ++ emit_after (default p (snd <$> last front)) back.
Proof.
  revert p. induction front as [|[block h] front IH]; intros p; [done|].
  simpl. rewrite last_cons, IH.
  destruct (last front); simpl; by destruct (decide (h = p)).
Qed.

Lemma hash_set_summarize_changes timeline :
  hash_set (summarize_changes timeline) = hash_set timeline.
Proof.
  apply set_eq. intros h. rewrite !elem_of_hash_set. split.
  - intros [block Hin]. exists block.
    by apply (elem_of_sublist _ _ _ Hin), summarize_changes_sublist.
  - intros [block Hin]. rewrite summarize_changes_unfold.
    destruct timeline as [|[b0 h0] rest]; [by apply elem_of_nil in Hin|].
    simpl. apply elem_of_cons in Hin as [[= <- <-]|Hin].
    + exists block. left.
    + destruct (emit_after_covers h0 rest _ Hin) as [Heq|([b' h'] & He' & Heq)];
        simpl in *; subst.
      * exists b0. left.
      * exists b'. by right.
Qed.

End SummarizeMore.

Lemma changed_summarize_changes (timeline : list entry) :
  changed (summarize_changes timeline) = changed timeline.
Proof.
  unfold changed, unique_hashes. by rewrite hash_set_summarize_changes.
Qed.

Lemma StronglySorted_sublist {A} (R : relation A) (l k : list A) :
  l `sublist_of` k → StronglySorted R k → StronglySorted R l.
Proof.
  induction 1 as [|x l k Hsub IH|x l k Hsub IH]; intros Hk.
  - constructor.
  - apply StronglySorted_inv in Hk as [Hk Hx].
    constructor; [by apply IH|].
    apply Forall_forall. intros y Hy. rewrite Forall_forall in Hx.
    apply Hx. by apply (elem_of_sublist l k).
  - apply StronglySorted_inv in Hk as [Hk _]. by apply IH.
Qed.

(** The change points carry every hash of the timeline: the set of hashes,
    its sorted list and the verdict can be computed from the change points
    alone. *)
Theorem summarize_changes_keeps_hashes (timeline : list entry) :
  hash_set (summarize_changes timeline) = hash_set timeline
  ∧ unique_hashes (summarize_changes timeline) = unique_hashes timeline
  ∧ changed (summarize_changes timeline) = changed timeline.
Proof.
  split; [apply hash_set_summarize_changes|]. split.
  - unfold unique_hashes. by rewrite hash_set_summarize_changes.
  - apply changed_summarize_changes.
Qed.

(** The last change point carries the hash-or-absence of the last entry of
    the timeline: it tells what is at the address at the end of the range. *)
Theorem summarize_changes_last_hash (timeline : list entry) :
  snd <$> last (summarize_changes timeline) = snd <$> last timeline.
Proof.
  rewrite summarize_changes_unfold.
  destruct timeline as [|[block h] rest]; [done|].
  simpl change_points_spec. rewrite !last_cons.
  pose proof (emit_after_last h rest) as Hlast.
  destruct (last (emit_after h rest)), (last rest); simpl in *; congruence.
Qed.

(** A timeline that grows only adds change points, and the ones it adds are
    found by summarizing from the last entry it had: nothing emitted before
    is revised. *)
Theorem summarize_changes_extend (front back : list entry) (e : entry) :
  summarize_changes ((front ++ [e]) ++ back)
  = summarize_changes (front ++ [e]) ++ tail (summarize_changes (e :: back))
  ∧ summarize_changes (front ++ [e])
      `prefix_of` summarize_changes ((front ++ [e]) ++ back).
Proof.
  assert (summarize_changes ((front ++ [e]) ++ back)
          = summarize_changes (front ++ [e])
              ++ tail (summarize_changes (e :: back))) as Heq.
  { rewrite !summarize_changes_unfold.
    pose proof (last_snoc e front) as Hlast.
    destruct (front ++ [e]) as [|[block h] rest] eqn:Hfront.
    { by destruct front. }
    destruct e as [be he]. simpl. f_equal. rewrite emit_after_app.
    f_equal. rewrite last_cons in Hlast.
    destruct (last rest) as [y|]; simplify_eq/=; done. }
  split; [done|]. rewrite Heq. by eexists.
Qed.

(** The change points are empty only for the empty timeline, and there is a
    single change point exactly when every entry has the hash-or-absence of
    the first one. *)
Theorem summarize_changes_single_iff (timeline : list entry) :
  (summarize_changes timeline = [] ↔ timeline = [])
  ∧ (length (summarize_changes timeline) = 1%nat ↔
       ∃ e rest, timeline = e :: rest ∧ Forall (λ x, x.2 = e.2) rest).
Proof.
  rewrite summarize_changes_unfold.
  destruct timeline as [|[block h] rest]; simpl.
  - split; [done|]. split; [done|]. by intros (? & ? & ? & _).
  - split; [done|]. split.
    + intros Hlen. exists (block, h), rest. split; [done|].
      apply emit_after_nil_iff. simpl.
      destruct (emit_after h rest); [done|simpl in Hlen; lia].
    + intros (e & rest' & [= <- <-] & Hall).
      apply emit_after_nil_iff in Hall. simpl in Hall. by rewrite Hall.
Qed.

(** A timeline that is reported as changed has at least two change points. *)
Theorem changed_needs_two_change_points (timeline : list entry) :
  changed timeline = true → (2 ≤ length (summarize_changes timeline))%nat.
Proof.
  rewrite <- changed_summarize_changes, changed_true_iff.
  intros (b1 & h1 & b2 & h2 & H1 & H2 & Hne).
  destruct (summarize_changes timeline) as [|x [|y l]]; simpl; [..|lia].
  - by apply elem_of_nil in H1.
  - apply list_elem_of_singleton in H1, H2. congruence.
Qed.

(** On a timeline with two versions of the code. *)
Lemma changed_needs_two_change_points_witness :
  changed [(1, Some "A"%string); (2, Some "B"%string)] = true
  ∧ (2 ≤ length (summarize_changes
                   [(1%Z, Some "A"%string); (2%Z, Some "B"%string)]))%nat.
Proof.
  split; [vm_compute; reflexivity|].
  apply (changed_needs_two_change_points
           [(1, Some "A"%string); (2, Some "B"%string)]).
  vm_compute. reflexivity.
Defined.

(** The converse fails: code that goes away and comes back makes three
    change points and leaves the verdict at [false]. *)
Example three_change_points_unchanged :
  length (summarize_changes
            [(1, Some "A"%string); (2, None); (3, Some "A"%string)]) = 3%nat
  ∧ changed [(1, Some "A"%string); (2, None); (3, Some "A"%string)] = false.
Proof. split; vm_compute; reflexivity. Qed.

(** The hashes [main] puts under ["unique_hashes"]: the hashes of the
    entries with code, each once, in ascending order. *)
Theorem unique_hashes_sorted_nodup (timeline : list entry) :
  Sorted String.le (unique_hashes timeline)
  ∧ NoDup (unique_hashes timeline)
  ∧ (∀ h, h ∈ unique_hashes timeline ↔ ∃ block, (block, Some h) ∈ timeline).
Proof.
  split; [apply unique_hashes_sorted|]. split.
  - unfold unique_hashes. rewrite merge_sort_Permutation.
    apply NoDup_elements.
  - apply elem_of_unique_hashes.
Qed.

(** * Further properties of the scan *)

Section ScanTrace.
Context {Time : Type}.
Variable E : env Time.
Implicit Types (w : world Time) (blocks : list Z) (results : list entry).

(** One pass's progress report, exactly: the line is printed when the clock
    says so or when the index is a multiple of [show_progress_every], and
    then the clock is read a second time. *)
Lemma progress_trace show_progress_every idx block (last_progress : Time) w :
  show_progress_every ≠ 0 →
  progress E show_progress_every idx block last_progress w =
    if progress_due E (clock E (ticks w)) last_progress
       || (idx mod show_progress_every =? 0)
    then (inr (clock E (S (ticks w))),
          World (S (S (ticks w))) (stdout w ++ [OutChecking block]) (queries w))
    else (inr last_progress, World (S (ticks w)) (stdout w) (queries w)).
Proof.
  intros Hspe. unfold progress, mbind, Py_bind, time_time, py_mod; simpl.
  destruct (progress_due E _ _); simpl; [done|].
  rewrite (proj2 (Z.eqb_neq _ _) Hspe). unfold mret, Py_ret; simpl.
  by destruct (_ =? 0).
Qed.

Lemma scan_loop_trace address show_progress_every idx blocks
    (last_progress : Time) results w :
  show_progress_every ≠ 0 →
  ∃ w' out,
    scan_loop E address show_progress_every idx blocks last_progress
      results w =
      (inr (results ++ ((λ b, (b, observed E address b)) <$> blocks)), w')
    ∧ stdout w' = stdout w ++ out
    ∧ Forall (λ o, is_scan_line o = true) out
    ∧ warned out = omap (failure E address) blocks
    ∧ checked out `sublist_of` blocks
    ∧ (∀ (i : nat) b,
         blocks !! i = Some b →
         (idx + Z.of_nat i) mod show_progress_every = 0 →
         b ∈ checked out)
    ∧ ticks w' = (ticks w + length blocks + length (checked out))%nat.
Proof.
  intros Hspe. revert idx last_progress results w.
  induction blocks as [|block blocks IH]; intros idx last_progress results w.
  - exists w, []. simpl. rewrite !app_nil_r.
    split_and!; [done|done|constructor|done|constructor|done|lia].
  - rewrite scan_loop_cons, progress_trace by done.
    destruct (progress_due E (clock E (ticks w)) last_progress
              || (idx mod show_progress_every =? 0)) eqn:Hdue;
      rewrite fetch_run;
      edestruct IH as (w' & out & -> & Hout & Hlines & Hwarn & Hsub & Hidx & Ht);
      simpl in Hout, Ht.
    + exists w', (OutChecking block
                   :: match failure E address block with
                      | Some (b, e) => [OutWarning b e]
                      | None => []
                      end ++ out).
      assert (checked (OutChecking block
                         :: match failure E address block with
                            | Some (b, e) => [OutWarning b e]
                            | None => []
                            end ++ out) = block :: checked out) as Hchk.
      { unfold checked. csimpl. rewrite omap_app.
        by destruct (failure E address block) as [[b e]|]. }
      rewrite Hchk. split_and!.
      * by rewrite <- app_assoc.
      * rewrite Hout, <- !app_assoc. done.
      * constructor; [done|]. apply Forall_app. split; [|done].
        by destruct (failure E address block) as [[b e]|]; repeat constructor.
      * unfold warned in *. simpl. rewrite omap_app, Hwarn.
        by destruct (failure E address block) as [[b e]|].
      * by apply sublist_skip.
      * intros [|i] b Hb Hmod; simplify_eq/=; [left|].
        right. apply (Hidx i b Hb).
        by replace (idx + 1 + Z.of_nat i) with (idx + Z.of_nat (S i)) by lia.
      * simpl. lia.
    + exists w', (match failure E address block with
                  | Some (b, e) => [OutWarning b e]
                  | None => []
                  end ++ out).
      assert (checked (match failure E address block with
                       | Some (b, e) => [OutWarning b e]
                       | None => []
                       end ++ out) = checked out) as Hchk.
      { unfold checked. rewrite omap_app.
        by destruct (failure E address block) as [[b e]|]. }
      rewrite Hchk. split_and!.
      * by rewrite <- app_assoc.
      * by rewrite Hout, <- ?app_assoc.
      * apply Forall_app. split; [|done].
        by destruct (failure E address block) as [[b e]|]; repeat constructor.
      * unfold warned in *. rewrite omap_app, Hwarn. simpl.
        by destruct (failure E address block) as [[b e]|].
      * by apply sublist_cons.
      * intros [|i] b Hb Hmod; simplify_eq/=.
        { apply orb_false_iff in Hdue as [_ Hz].
          apply Z.eqb_neq in Hz. by rewrite Z.add_0_r in Hmod. }
        apply (Hidx i b Hb).
        by replace (idx + 1 + Z.of_nat i) with (idx + Z.of_nat (S i)) by lia.
      * simpl. lia.
Qed.

Lemma scan_codehash_timeline_trace address start_block end_block step
    show_progress_every w :
  step ≠ 0 → show_progress_every ≠ 0 →
  ∃ w' out,
    scan_codehash_timeline E address start_block end_block step
      show_progress_every w =
      (inr ((λ b, (b, observed E address b))
              <$> heights start_block end_block step), w')
    ∧ stdout w' = stdout w ++ out
    ∧ Forall (λ o, is_scan_line o = true) out
    ∧ warned out = omap (failure E address) (heights start_block end_block step)
    ∧ checked out `sublist_of` heights start_block end_block step
    ∧ (∀ (i : nat) b,
         heights start_block end_block step !! i = Some b →
         (1 + Z.of_nat i) mod show_progress_every = 0 →
         b ∈ checked out)
    ∧ ticks w' = (S (ticks w) + length (heights start_block end_block step)
                  + length (checked out))%nat.
Proof.
  intros Hstep Hspe.
  unfold scan_codehash_timeline, mbind, Py_bind, time_time, range; simpl.
  rewrite (proj2 (Z.eqb_neq _ _) Hstep). unfold mret, Py_ret; simpl.
  edestruct (scan_loop_trace address show_progress_every 1
               (heights start_block end_block step))
    as (w' & out & Hrun & Hrest); [done|].
  unfold heights in Hrun at 1. rewrite Hrun.
  exists w', out. split; [done|]. exact Hrest.
Qed.

End ScanTrace.

(** [codehash_at] sends exactly one query and neither prints nor reads the
    clock.  It returns [None] exactly when the node has no or empty
    bytecode, the digest of the bytecode otherwise, and whatever the query
    raises leaves it as a [RuntimeError] that carries the block. *)
Theorem codehash_at_outcomes {Time} (E : env Time) (address : string)
    (block : Z) (w : world Time) :
  (codehash_at E address block w).2
  = World (ticks w) (stdout w) (queries w ++ [(address, block)])
  ∧ ((codehash_at E address block w).1 = inr None ↔
       get_code E address block = inr None
       ∨ get_code E address block = inr (Some []))
  ∧ (∀ h, (codehash_at E address block w).1 = inr (Some h) ↔
          ∃ code, get_code E address block = inr (Some code)
                  ∧ code ≠ [] ∧ h = keccak_hex E code)
  ∧ (∀ e, (codehash_at E address block w).1 = inl e ↔
          ∃ cause, get_code E address block = inl cause
                   ∧ e = RuntimeError block (RpcFailure cause)).
Proof.
  rewrite codehash_at_run. unfold observed. simpl.
  destruct (get_code E address block) as [cause|[[|c code]|]]; simpl.
  - split; [done|]. split; [by split; [|intros [|]]|]. split.
    + intros h. split; [done|]. by intros (? & ? & _).
    + intros e. split.
      * intros [= <-]. by exists cause.
      * by intros (? & [= <-] & ->).
  - split; [done|]. split; [split; auto|]. split.
    + intros h. split; [done|]. by intros (? & [= <-] & ? & _).
    + intros e. split; [done|]. by intros (? & ? & _).
  - split; [done|]. split; [by split; [|intros [|]]|]. split.
    + intros h. split.
      * intros [= <-]. by exists (c :: code).
      * by intros (? & [= <-] & _ & ->).
    + intros e. split; [done|]. by intros (? & ? & _).
  - split; [done|]. split; [split; auto|]. split.
    + intros h. split; [done|]. by intros (? & ? & _).
    + intros e. split; [done|]. by intros (? & ? & _).
Qed.

(** The scan prints nothing but progress lines and warnings, and it warns
    exactly once for every height whose query failed, in the order of the
    heights, with the [RuntimeError] of [codehash_at]; every warned height
    is an entry without hash in the timeline. *)
Theorem scan_warns_once_per_failure {Time} (E : env Time) (address : string)
    (start_block end_block step show_progress_every : Z) (w : world Time) :
  step ≠ 0 → show_progress_every ≠ 0 →
  ∃ timeline w' out,
    scan_codehash_timeline E address start_block end_block step
      show_progress_every w = (inr timeline, w')
    ∧ stdout w' = stdout w ++ out
    ∧ Forall (λ o, is_scan_line o = true) out
    ∧ warned out = omap (failure E address) timeline.*1
    ∧ (∀ b e, (b, e) ∈ warned out →
              (b, None) ∈ timeline
              ∧ ∃ cause, get_code E address b = inl cause
                         ∧ e = RuntimeError b (RpcFailure cause)).
Proof.
  intros Hstep Hspe.
  destruct (scan_codehash_timeline_trace E address start_block end_block step
              show_progress_every w)
    as (w' & out & Hrun & Hout & Hlines & Hwarn & _); [done..|].
  eexists _, w', out. split; [exact Hrun|].
  rewrite timeline_heights. split_and!; [done..|].
  intros b e. rewrite Hwarn. intros (b' & Hb' & Hf)%list_elem_of_omap.
  unfold failure in Hf.
  destruct (get_code E address b') as [cause|] eqn:Hcode; simplify_eq/=.
  split; [|by exists cause].
  apply list_elem_of_fmap. exists b. split; [|done].
  unfold observed. by rewrite Hcode.
Qed.

(** On the demo node, whose query at height 150 fails. *)
Lemma scan_warns_once_per_failure_witness :
  25 ≠ 0 ∧ 25 ≠ 0 ∧
  ∃ timeline w' out,
    scan_codehash_timeline Demo.world_env Demo.address 100 200 25 25
      Demo.boot = (inr timeline, w')
    ∧ stdout w' = stdout Demo.boot ++ out
    ∧ Forall (λ o, is_scan_line o = true) out
    ∧ warned out = omap (failure Demo.world_env Demo.address) timeline.*1
    ∧ (∀ b e, (b, e) ∈ warned out →
              (b, None) ∈ timeline
              ∧ ∃ cause, get_code Demo.world_env Demo.address b = inl cause
                         ∧ e = RuntimeError b (RpcFailure cause)).
Proof.
  split; [lia|]. split; [lia|].
  apply (scan_warns_once_per_failure Demo.world_env Demo.address
           100 200 25 25 Demo.boot); lia.
Defined.

(** Progress lines come at most once per height and in the order of the
    heights; every sample whose index, counted from 1, is a multiple of
    [show_progress_every] gets one whatever the clock reads; and the clock
    is read once at the start, once per height and once more per progress
    line. *)
Theorem scan_progress_cadence {Time} (E : env Time) (address : string)
    (start_block end_block step show_progress_every : Z) (w : world Time) :
  step ≠ 0 → show_progress_every ≠ 0 →
  ∃ timeline w' out,
    scan_codehash_timeline E address start_block end_block step
      show_progress_every w = (inr timeline, w')
    ∧ stdout w' = stdout w ++ out
    ∧ checked out `sublist_of` timeline.*1
    ∧ (∀ (i : nat) e,
         timeline !! i = Some e →
         (1 + Z.of_nat i) mod show_progress_every = 0 →
         e.1 ∈ checked out)
    ∧ ticks w' = (S (ticks w) + length timeline + length (checked out))%nat.
Proof.
  intros Hstep Hspe.
  destruct (scan_codehash_timeline_trace E address start_block end_block step
              show_progress_every w)
    as (w' & out & Hrun & Hout & _ & _ & Hsub & Hidx & Ht); [done..|].
  eexists _, w', out. split; [exact Hrun|].
  rewrite timeline_heights, length_fmap. split_and!; [done..| |done].
  intros i e. rewrite list_lookup_fmap.
  destruct (heights start_block end_block step !! i) as [b|] eqn:Hb;
    [|done].
  intros [= <-] Hmod. simpl. by apply (Hidx i).
Qed.

(** On the demo node, with a progress line at every second sample. *)
Lemma scan_progress_cadence_witness :
  25 ≠ 0 ∧ 2 ≠ 0 ∧
  ∃ timeline w' out,
    scan_codehash_timeline Demo.world_env Demo.address 100 200 25 2
      Demo.boot = (inr timeline, w')
    ∧ stdout w' = stdout Demo.boot ++ out
    ∧ checked out `sublist_of` timeline.*1
    ∧ (∀ (i : nat) e,
         timeline !! i = Some e →
         (1 + Z.of_nat i) mod 2 = 0 →
         e.1 ∈ checked out)
    ∧ ticks w' = (S (ticks Demo.boot) + length timeline
                  + length (checked out))%nat.
Proof.
  split; [lia|]. split; [lia|].
  apply (scan_progress_cadence Demo.world_env Demo.address
           100 200 25 2 Demo.boot); lia.
Defined.

(** Called with [show_progress_every = 0] on a range that has a sample, the
    scan raises [ZeroDivisionError] in its first pass, before any query,
    unless the clock already asks for a progress line there. *)
Theorem scan_zero_cadence_raises {Time} (E : env Time) (address : string)
    (start_block end_block step : Z) (w : world Time) :
  start_block ≤ end_block → 1 ≤ step →
  progress_due E (clock E (S (ticks w))) (clock E (ticks w)) = false →
  scan_codehash_timeline E address start_block end_block step 0 w
  = (inl ZeroDivisionError, World (S (S (ticks w))) (stdout w) (queries w)).
Proof.
  intros Hrange Hstep Hdue.
  pose proof (head_heights start_block end_block step Hrange Hstep) as Hhead.
  unfold scan_codehash_timeline, mbind, Py_bind, time_time, range; simpl.
  rewrite (proj2 (Z.eqb_neq step 0)) by lia. unfold mret, Py_ret; simpl.
  unfold heights in Hhead.
  destruct (_ <$> seq 0 _) as [|block blocks]; [done|].
  rewrite scan_loop_cons.
  unfold progress, mbind, Py_bind, time_time, py_mod; simpl.
  by rewrite Hdue.
Qed.

(** On the demo node, whose clock has ticked once by the first pass. *)
Lemma scan_zero_cadence_raises_witness :
  100 ≤ 200 ∧ 1 ≤ 25 ∧
  progress_due Demo.world_env (clock Demo.world_env (S (ticks Demo.boot)))
    (clock Demo.world_env (ticks Demo.boot)) = false ∧
  scan_codehash_timeline Demo.world_env Demo.address 100 200 25 0 Demo.boot
  = (inl ZeroDivisionError,
     World (S (S (ticks Demo.boot))) (stdout Demo.boot) (queries Demo.boot)).
Proof.
  split; [lia|]. split; [lia|]. split; [reflexivity|].
  apply (scan_zero_cadence_raises Demo.world_env Demo.address
           100 200 25 Demo.boot); [lia|lia|reflexivity].
Defined.

(** On [scan_reversed_bounds]: bounds 500 and 100, step 100. *)
Lemma scan_reversed_bounds_witness :
  100 < 500 ∧ 1 ≤ 100 ∧
  scan_codehash_timeline Demo.world_env Demo.address 500 100 100 25 Demo.boot
  = (inr [], World (S (ticks Demo.boot)) (stdout Demo.boot)
               (queries Demo.boot)).
Proof.
  split; [lia|]. split; [lia|].
  apply (scan_reversed_bounds Demo.world_env Demo.address
           500 100 100 25 Demo.boot); lia.
Defined.

Section DescendingHeights.
Implicit Types (start_block end_block step : Z).

Lemma length_heights_descending start_block end_block step :
  step < 0 → end_block + 1 < start_block →
  Z.of_nat (length (heights start_block end_block step))
  = (start_block - end_block - 2) / (- step) + 1.
Proof.
  intros Hstep Hrange. unfold heights, range_length.
  rewrite length_fmap, length_seq.
  rewrite (proj2 (Z.ltb_ge 0 step)) by lia.
  rewrite (proj2 (Z.ltb_lt (end_block + 1) start_block)) by lia.
  replace (start_block - (end_block + 1) - 1)
    with (start_block - end_block - 2) by lia.
  apply Z2Nat.id.
  assert (0 ≤ (start_block - end_block - 2) / (- step))
    by (apply Z.div_pos; lia).
  lia.
Qed.

Lemma heights_above_end start_block end_block step :
  step < 0 → end_block + 1 < start_block →
  Forall (λ b, end_block + 1 < b) (heights start_block end_block step).
Proof.
  intros Hstep Hrange.
  pose proof (length_heights_descending _ _ _ Hstep Hrange) as Hlen.
  rewrite heights_seq. apply Forall_fmap, Forall_forall.
  intros i [_ Hi]%elem_of_seq. simpl in *.
  pose proof (Z.mul_div_le (start_block - end_block - 2) (- step)) as Hdiv.
  nia.
Qed.

Lemma arithmetic_progression_descending start_block step (k n : nat) :
  step < 0 →
  StronglySorted (λ x y, y < x)
    ((λ i : nat, start_block + Z.of_nat i * step) <$> seq k n).
Proof.
  intros Hstep. revert k. induction n as [|n IH]; intros k; simpl.
  - constructor.
  - constructor; [apply IH|].
    apply Forall_fmap, Forall_forall. intros i [Hi _]%elem_of_seq.
    simpl. nia.
Qed.

End DescendingHeights.

(** [scan_codehash_timeline] does not insist on a positive step.  With a
    negative step and [start_block] more than one above [end_block] it walks
    down from [start_block] and queries the node at every height it passes;
    it stops two or more above [end_block], so that neither [end_block] nor
    [end_block + 1] is ever sampled. *)
Theorem scan_descending {Time} (E : env Time) (address : string)
    (start_block end_block step show_progress_every : Z) (w : world Time) :
  step < 0 → end_block + 1 < start_block → show_progress_every ≠ 0 →
  ∃ timeline w',
    scan_codehash_timeline E address start_block end_block step
      show_progress_every w = (inr timeline, w')
    ∧ Z.of_nat (length timeline)
      = (start_block - end_block - 2) / (- step) + 1
    ∧ timeline.*1 = (λ i : nat, start_block + Z.of_nat i * step)
                      <$> seq 0 (length timeline)
    ∧ StronglySorted (λ x y, y < x) timeline.*1
    ∧ Forall (λ b, end_block + 1 < b) timeline.*1
    ∧ queries w' = queries w ++ ((λ b, (address, b)) <$> timeline.*1).
Proof.
  intros Hstep Hrange Hspe.
  destruct (scan_codehash_timeline_run E address start_block end_block step
              show_progress_every w) as (w' & out & Hrun & _ & _ & Hq);
    [lia|done|].
  eexists _, w'. split; [exact Hrun|].
  rewrite timeline_heights, length_fmap. split_and!.
  - by apply length_heights_descending.
  - apply heights_seq.
  - by apply arithmetic_progression_descending.
  - by apply heights_above_end.
  - done.
Qed.

(** From 500 down towards 100 in steps of 100: heights 500, 400, 300 and
    200. *)
Lemma scan_descending_witness :
  -100 < 0 ∧ 100 + 1 < 500 ∧ 25 ≠ 0 ∧
  ∃ timeline w',
    scan_codehash_timeline Demo.world_env Demo.address 500 100 (-100) 25
      Demo.boot = (inr timeline, w')
    ∧ Z.of_nat (length timeline) = (500 - 100 - 2) / (- -100) + 1
    ∧ timeline.*1 = (λ i : nat, 500 + Z.of_nat i * -100)
                      <$> seq 0 (length timeline)
    ∧ StronglySorted (λ x y, y < x) timeline.*1
    ∧ Forall (λ b, 100 + 1 < b) timeline.*1
    ∧ queries w' = queries Demo.boot
        ++ ((λ b, (Demo.address, b)) <$> timeline.*1).
Proof.
  split; [lia|]. split; [lia|]. split; [lia|].
  apply (scan_descending Demo.world_env Demo.address 500 100 (-100) 25
           Demo.boot); lia.
Defined.

(** The change points of a scan over valid bounds begin at [start_block],
    have strictly increasing heights within the bounds, and are no more
    than the samples. *)
Theorem scan_change_points_ascending {Time} (E : env Time) (address : string)
    (start_block end_block step show_progress_every : Z) (w : world Time) :
  start_block ≤ end_block → 1 ≤ step → show_progress_every ≠ 0 →
  ∃ timeline w',
    scan_codehash_timeline E address start_block end_block step
      show_progress_every w = (inr timeline, w')
    ∧ head (summarize_changes timeline).*1 = Some start_block
    ∧ StronglySorted Z.lt (summarize_changes timeline).*1
    ∧ Forall (λ b, start_block ≤ b ≤ end_block) (summarize_changes timeline).*1
    ∧ (length (summarize_changes timeline) ≤ length timeline)%nat.
Proof.
  intros Hrange Hstep Hspe.
  destruct (scan_codehash_timeline_run E address start_block end_block step
              show_progress_every w) as (w' & out & Hrun & _); [lia|done|].
  eexists _, w'. split; [exact Hrun|].
  set (timeline := (λ b, (b, observed E address b))
                     <$> heights start_block end_block step).
  pose proof (summarize_changes_sublist timeline) as Hsub.
  assert ((summarize_changes timeline).*1
            `sublist_of` heights start_block end_block step) as Hsub1.
  { rewrite <- (timeline_heights (observed E address)
                 (heights start_block end_block step)).
    by apply fmap_sublist. }
  assert (StronglySorted Z.lt (summarize_changes timeline).*1) as Hsorted.
  { apply (StronglySorted_sublist _ _ _ Hsub1). by apply heights_sorted. }
  assert (head (summarize_changes timeline).*1 = Some start_block) as Hhead.
  { rewrite summarize_changes_unfold. subst timeline.
    pose proof (head_heights start_block end_block step Hrange Hstep) as Hh.
    by destruct (heights start_block end_block step); simplify_eq/=. }
  split_and!; [done|done| |by apply sublist_length].
  apply Forall_forall. intros b Hb. split.
  - destruct (summarize_changes timeline).*1 as [|b0 l] eqn:Hl; [done|].
    simplify_eq/=. apply StronglySorted_inv in Hsorted as [_ Hall].
    apply elem_of_cons in Hb as [->|Hb]; [done|].
    rewrite Forall_forall in Hall. apply Hall in Hb. lia.
  - pose proof (heights_le_end start_block end_block step Hrange Hstep) as Hle.
    rewrite Forall_forall in Hle. apply Hle.
    by apply (elem_of_sublist _ _ _ Hb).
Qed.

(** * Further properties of [main] *)

Section MainMore.
Context {Time : Type}.
Variable E : env Time.
Implicit Types (w : world Time) (a : args).

Lemma first_failure_None a :
  first_failure E a = None →
  rpc_is_http (a_rpc a) = true
  ∧ a_from_block a ≤ a_to_block a ∧ 1 ≤ a_step a
  ∧ is_address E (a_address a) = true ∧ is_connected E = true.
Proof.
  unfold first_failure.
  destruct (rpc_is_http (a_rpc a)); simpl; [|done].
  destruct (Z.ltb_spec (a_to_block a) (a_from_block a)); [done|].
  destruct (Z.leb_spec (a_step a) 0); [done|].
  destruct (is_address E (a_address a)); simpl; [|done].
  destruct (is_connected E); simpl; [|done].
  intros _. split_and!; [done|lia|lia|done|done].
Qed.

Lemma main_first_failure_run a w o :
  first_failure E a = Some o →
  main E a w =
    (inl (SystemExit 1), World (ticks w) (stdout w ++ [o]) (queries w)).
Proof.
  unfold first_failure, main, when, to_checksum, try_except, mbind, Py_bind,
    sys_exit, raise.
  destruct (rpc_is_http (a_rpc a)); simpl; [|by intros [= <-]].
  destruct (a_to_block a <? a_from_block a); simpl; [by intros [= <-]|].
  destruct (a_step a <=? 0); simpl; [by intros [= <-]|].
  destruct (is_address E (a_address a)); simpl; [|by intros [= <-]].
  destruct (is_connected E); simpl; [done|by intros [= <-]].
Qed.

End MainMore.

(** Whatever the arguments and the node, [main] ends through [sys.exit]
    with code 0, 1 or 2 and never with another exception; the code is 1
    exactly when one of its five checks fails. *)
Theorem main_exit_codes {Time} (E : env Time) (a : args) (w : world Time) :
  ∃ code w',
    main E a w = (inl (SystemExit code), w')
    ∧ code ∈ [0; 1; 2]
    ∧ (code = 1 ↔ is_Some (first_failure E a)).
Proof.
  destruct (first_failure E a) as [o|] eqn:Hfail.
  - exists 1, (World (ticks w) (stdout w ++ [o]) (queries w)).
    split; [by apply main_first_failure_run|].
    split; [rewrite !elem_of_cons; auto|]. split; [by eexists|done].
  - destruct (first_failure_None E a Hfail)
      as (Hrpc & Hrange & Hstep & Haddr & Hconn).
    destruct (main_run E a w Hrpc Hrange Hstep Haddr Hconn)
      as (w' & Hrun & _).
    eexists _, w'. split; [exact Hrun|].
    destruct (changed _); (split; [rewrite !elem_of_cons; auto|]);
      (split; [done|by intros [? ?]]).
Qed.

(** A failed check ends [main] at once: one line is printed, the exit code
    is 1, the node has not been queried and the clock has not been read.
    The checks come in a fixed order, so a malformed address is reported
    only for a well-formed URL and range, and a dead connection only for a
    well-formed address. *)
Theorem main_first_failure {Time} (E : env Time) (a : args) (w : world Time)
    (o : output Time) :
  first_failure E a = Some o →
  main E a w =
    (inl (SystemExit 1), World (ticks w) (stdout w ++ [o]) (queries w)).
Proof. apply main_first_failure_run. Qed.

(** A node whose [Web3.is_address] accepts nothing: the address is turned
    down. *)
Lemma main_first_failure_witness :
  first_failure
    (Env (λ _, false) (λ s, s) Demo.digest Demo.node true (Some 1)
       (λ n : nat, n) (λ _ _, false))
    (Demo.cli 100 200 25)
  = Some (OutBadAddress
            (ValueError ("Invalid Ethereum address: " +:+ Demo.address)))
  ∧ main
      (Env (λ _, false) (λ s, s) Demo.digest Demo.node true (Some 1)
         (λ n : nat, n) (λ _ _, false))
      (Demo.cli 100 200 25) Demo.boot
    = (inl (SystemExit 1),
       World (ticks Demo.boot)
         (stdout Demo.boot
          ++ [OutBadAddress
                (ValueError ("Invalid Ethereum address: " +:+ Demo.address))])
         (queries Demo.boot)).
Proof.
  split; [reflexivity|].
  apply (main_first_failure
           (Env (λ _, false) (λ s, s) Demo.digest Demo.node true (Some 1)
              (λ n : nat, n) (λ _ _, false))
           (Demo.cli 100 200 25) Demo.boot).
  reflexivity.
Defined.

Lemma queries_fst {A B} (x : A) (l : list B) :
  ((λ b, (x, b)) <$> l).*1 = replicate (length ((λ b, (x, b)) <$> l)) x.
Proof. induction l as [|b l IH]; csimpl; [done|by f_equal]. Qed.

Lemma queries_snd {A B} (x : A) (l : list B) :
  ((λ b, (x, b)) <$> l).*2 = l.
Proof. induction l as [|b l IH]; csimpl; [done|by f_equal]. Qed.

(** When every check passes, [main] queries the node for the checksummed
    address and for nothing else, once per sampled height and in ascending
    order, all within the bounds. *)
Theorem main_queries {Time} (E : env Time) (a : args) (w : world Time) :
  first_failure E a = None →
  ∃ asked,
    queries (main E a w).2 = queries w ++ asked
    ∧ asked.*1 = replicate (length asked) (to_checksum_address E (a_address a))
    ∧ Z.of_nat (length asked)
      = (a_to_block a - a_from_block a) / a_step a + 1
    ∧ StronglySorted Z.lt asked.*2
    ∧ Forall (λ b, a_from_block a ≤ b ≤ a_to_block a) asked.*2.
Proof.
  intros Hfail.
  destruct (first_failure_None E a Hfail)
    as (Hrpc & Hrange & Hstep & Haddr & Hconn).
  destruct (main_run E a w Hrpc Hrange Hstep Haddr Hconn)
    as (w' & Hrun & Hq).
  rewrite Hrun. simpl. eexists. split; [exact Hq|].
  set (hs := heights (a_from_block a) (a_to_block a) (a_step a)).
  rewrite queries_snd. split_and!; [apply queries_fst|rewrite length_fmap|..].
  - by apply length_heights.
  - by apply heights_sorted.
  - pose proof (heights_le_end _ _ _ Hrange Hstep) as Hle.
    pose proof (heights_sorted (a_from_block a) (a_to_block a) (a_step a) Hstep)
      as Hsorted.
    pose proof (head_heights _ _ _ Hrange Hstep) as Hhead.
    fold hs in Hle, Hsorted, Hhead.
    destruct hs as [|b0 l]; simplify_eq/=.
    apply StronglySorted_inv in Hsorted as [_ Hall].
    apply Forall_cons in Hle as [Hle0 Hle].
    constructor; [lia|].
    apply Forall_forall. intros b Hb. rewrite Forall_forall in Hall, Hle.
    specialize (Hall b Hb). specialize (Hle b Hb). lia.
Qed.

(** The upgrade scenario on the demo node. *)
Lemma main_queries_witness :
  first_failure Demo.world_env (Demo.cli 100 200 25) = None ∧
  ∃ asked,
    queries (main Demo.world_env (Demo.cli 100 200 25) Demo.boot).2
    = queries Demo.boot ++ asked
    ∧ asked.*1 = replicate (length asked)
                   (to_checksum_address Demo.world_env
                      (a_address (Demo.cli 100 200 25)))
    ∧ Z.of_nat (length asked)
      = (a_to_block (Demo.cli 100 200 25) - a_from_block (Demo.cli 100 200 25))
        / a_step (Demo.cli 100 200 25) + 1
    ∧ StronglySorted Z.lt asked.*2
    ∧ Forall (λ b, a_from_block (Demo.cli 100 200 25) ≤ b
                   ≤ a_to_block (Demo.cli 100 200 25)) asked.*2.
Proof.
  split; [reflexivity|].
  apply (main_queries Demo.world_env (Demo.cli 100 200 25) Demo.boot).
  reflexivity.
Defined.



(** On the demo node, heights 100 to 200. *)
Lemma scan_change_points_ascending_witness :
  100 ≤ 200 ∧ 1 ≤ 25 ∧ 25 ≠ 0 ∧
  ∃ timeline w',
    scan_codehash_timeline Demo.world_env Demo.address 100 200 25 25
      Demo.boot = (inr timeline, w')
    ∧ head (summarize_changes timeline).*1 = Some 100
    ∧ StronglySorted Z.lt (summarize_changes timeline).*1
    ∧ Forall (λ b, 100 ≤ b ≤ 200) (summarize_changes timeline).*1
    ∧ (length (summarize_changes timeline) ≤ length timeline)%nat.
Proof.
  split; [lia|]. split; [lia|]. split; [lia|].
  apply (scan_change_points_ascending Demo.world_env Demo.address
           100 200 25 25 Demo.boot); lia.
Defined.

(** * The scan under an interrupt *)

Section Interrupt.
Context {Time : Type}.
Variable E : env Time.
Variable sigint : nat → bool.
Implicit Types (w : world Time) (blocks : list Z) (results : list entry).

(** [first_sigint] is the least number of samples at which the interrupt
    is pending. *)
Lemma first_sigint_Some (taken left k : nat) :
  first_sigint sigint taken left = Some k →
  (taken ≤ k < taken + left)%nat ∧ sigint k = true
  ∧ ∀ j : nat, (taken ≤ j < k)%nat → sigint j = false.
Proof.
  revert taken. induction left as [|left IH]; intros taken; simpl; [done|].
  destruct (sigint taken) eqn:Hs.
  - intros [= <-]. split_and!; [lia..|done|lia].
  - intros (Hk & Hsk & Hbefore)%IH. split_and!; [lia..|done|].
    intros j Hj. destruct (decide (j = taken)) as [->|]; [done|].
    apply Hbefore. lia.
Qed.

Lemma first_sigint_None (taken left : nat) :
  first_sigint sigint taken left = None →
  ∀ j : nat, (taken ≤ j < taken + left)%nat → sigint j = false.
Proof.
  revert taken. induction left as [|left IH]; intros taken; simpl; [lia|].
  destruct (sigint taken) eqn:Hs; [done|].
  intros Hnone j Hj. destruct (decide (j = taken)) as [->|]; [done|].
  apply (IH _ Hnone). lia.
Qed.

Lemma scan_loop_sigint_cons address show_progress_every idx block blocks
    (last_progress : Time) results w :
  scan_loop_sigint E sigint address show_progress_every idx (block :: blocks)
    last_progress results w =
  if sigint (length results) then (inl KeyboardInterrupt, w)
  else
    match progress E show_progress_every idx block last_progress w with
    | (inl e, w1) => (inl e, w1)
    | (inr last', w1) =>
        match try_except is_Exception (codehash_at E address block)
                (λ e, print (OutWarning block e);; mret None) w1 with
        | (inl e, w2) => (inl e, w2)
        | (inr h, w2) =>
            scan_loop_sigint E sigint address show_progress_every (idx + 1)
              blocks last' (results ++ [(block, h)]) w2
        end
    end.
Proof.
  simpl. destruct (sigint (length results)); [done|].
  unfold progress, mbind, Py_bind, time_time, py_mod; simpl.
  destruct (progress_due E _ _); simpl; [done|].
  destruct (show_progress_every =? 0); simpl; [done|].
  unfold mret, Py_ret; simpl. by destruct (_ =? 0).
Qed.

(** Without an interrupt the loop is the loop of the source; with one it
    does what the source's loop does on the blocks before it, and raises. *)
Lemma scan_loop_sigint_run address show_progress_every idx blocks
    (last_progress : Time) results w :
  show_progress_every ≠ 0 →
  scan_loop_sigint E sigint address show_progress_every idx blocks
    last_progress results w =
  match first_sigint sigint (length results) (length blocks) with
  | None =>
      scan_loop E address show_progress_every idx blocks last_progress
        results w
  | Some k =>
      (inl KeyboardInterrupt,
       (scan_loop E address show_progress_every idx
          (take (k - length results) blocks) last_progress results w).2)
  end.
Proof.
  intros Hspe. revert idx last_progress results w.
  induction blocks as [|block blocks IH]; intros idx last_progress results w;
    [done|].
  rewrite scan_loop_sigint_cons. simpl first_sigint. simpl length.
  destruct (sigint (length results)) eqn:Hs.
  { by rewrite Nat.sub_diag. }
  destruct (progress_run E show_progress_every idx block last_progress w Hspe)
    as (last' & w1 & out1 & Hprogress & _).
  rewrite Hprogress, fetch_run, IH, length_app. simpl length.
  rewrite Nat.add_1_r.
  destruct (first_sigint sigint (S (length results)) (length blocks))
    as [k|] eqn:Hfirst.
  - apply first_sigint_Some in Hfirst as [Hk _].
    replace (k - length results)%nat with (S (k - S (length results)))
      by lia.
    simpl take. by rewrite scan_loop_cons, Hprogress, fetch_run.
  - by rewrite scan_loop_cons, Hprogress, fetch_run.
Qed.

End Interrupt.

(** The first [k] heights of a range are the range that ends at the
    [k]-th. *)
Lemma take_heights (start_block end_block step : Z) (k : nat) :
  1 ≤ step → (k ≤ length (heights start_block end_block step))%nat →
  take k (heights start_block end_block step)
  = heights start_block (start_block + (Z.of_nat k - 1) * step) step.
Proof.
  intros Hstep Hk. unfold heights at 2.
  assert (range_length start_block
            (start_block + (Z.of_nat k - 1) * step + 1) step = Z.of_nat k)
    as ->.
  { unfold range_length. rewrite (proj2 (Z.ltb_lt 0 step)) by lia.
    destruct k as [|k].
    - by rewrite (proj2 (Z.ltb_ge _ _)) by lia.
    - rewrite (proj2 (Z.ltb_lt _ _)) by nia.
      replace (start_block + (Z.of_nat (S k) - 1) * step + 1 - start_block - 1)
        with (Z.of_nat k * step) by lia.
      rewrite Z.div_mul by lia. lia. }
  rewrite Nat2Z.id, heights_seq, <- fmap_take, take_seq.
  by rewrite Nat.min_l.
Qed.

(** The whole scan under an interrupt: the scan of the source when no
    interrupt arrives before the last sample, and otherwise
    [KeyboardInterrupt] in the world that the scan of the heights before the
    interrupt leaves. *)
Lemma scan_codehash_timeline_sigint_run {Time} (E : env Time)
    (sigint : nat → bool) (address : string)
    (start_block end_block step show_progress_every : Z) (w : world Time) :
  1 ≤ step → show_progress_every ≠ 0 →
  scan_codehash_timeline_sigint E sigint address start_block end_block step
    show_progress_every w =
  match first_sigint sigint 0
          (length (heights start_block end_block step)) with
  | None =>
      scan_codehash_timeline E address start_block end_block step
        show_progress_every w
  | Some k =>
      (inl KeyboardInterrupt,
       (scan_codehash_timeline E address start_block
          (start_block + (Z.of_nat k - 1) * step) step
          show_progress_every w).2)
  end.
Proof.
  intros Hstep Hspe.
  unfold scan_codehash_timeline_sigint, scan_codehash_timeline, mbind,
    Py_bind, time_time, range; simpl.
  rewrite (proj2 (Z.eqb_neq step 0)) by lia. unfold mret, Py_ret; simpl.
  rewrite scan_loop_sigint_run by done. simpl length.
  change ((λ i : nat, start_block + Z.of_nat i * step)
            <$> seq 0 (Z.to_nat (range_length start_block (end_block + 1) step)))
    with (heights start_block end_block step).
  destruct (first_sigint sigint 0 (length (heights start_block end_block step)))
    as [k|] eqn:Hfirst; [|done].
  apply first_sigint_Some in Hfirst as [Hk _].
  rewrite Nat.sub_0_r, take_heights by (done || lia). done.
Qed.

(** C9, as the specification states it, fails.  The scan of ten heights,
    100 to 190 in steps of 10, is interrupted between two passes of the loop
    when three samples are taken.  It does not return those three entries
    with a mark: it raises [KeyboardInterrupt] and returns nothing.  The
    three entries were there: the world is the one in which the scan of the
    heights 100 to 120 returns them, with the same three queries and the
    same progress line, and nothing is printed that says the scan was
    cut short. *)
Lemma C9_counterexample :
  length (heights 100 190 10) = 10%nat
  ∧ first_sigint (Nat.eqb 3) 0 10 = Some 3%nat
  ∧ scan_codehash_timeline_sigint Demo.world_env (Nat.eqb 3) Demo.address
      100 190 10 25 Demo.boot
    = (inl KeyboardInterrupt,
       World 5 [OutChecking 110]
         [(Demo.address, 100); (Demo.address, 110); (Demo.address, 120)])
  ∧ scan_codehash_timeline Demo.world_env Demo.address 100 120 10 25
      Demo.boot
    = (inr [(100, Some "0x6080"%string); (110, Some "0x6080"%string);
            (120, Some "0x6080"%string)],
       World 5 [OutChecking 110]
         [(Demo.address, 100); (Demo.address, 110); (Demo.address, 120)]).
Proof. split_and!; vm_compute; reflexivity. Qed.

(** C9, amended: the scan takes no cancellation signal and its result
    carries no mark of being cut short.  For [start_block ≤ end_block],
    [step ≥ 1] and a cadence other than zero, the scan of the source returns
    the complete timeline of [floor((end_block - start_block) / step) + 1]
    entries, and so does the scan under an interrupt that does not arrive
    before the last sample.  When the interrupt arrives between two passes
    after [k] of these samples, the scan raises [KeyboardInterrupt] and
    returns nothing.  The [k] entries are lost: what is left is the world of
    the scan of the first [k] heights, with its [k] queries, and with
    progress lines and warnings as its only output. *)
Theorem C9_interrupt_discards_partial_timeline {Time} (E : env Time)
    (sigint : nat → bool) (address : string)
    (start_block end_block step show_progress_every : Z) (w : world Time) :
  start_block ≤ end_block → 1 ≤ step → show_progress_every ≠ 0 →
  ∃ timeline w_end,
    scan_codehash_timeline E address start_block end_block step
      show_progress_every w = (inr timeline, w_end)
    ∧ Z.of_nat (length timeline) = (end_block - start_block) / step + 1
    ∧ match first_sigint sigint 0 (length timeline) with
      | None =>
          scan_codehash_timeline_sigint E sigint address start_block
            end_block step show_progress_every w = (inr timeline, w_end)
      | Some k =>
          ∃ w_k out,
            scan_codehash_timeline_sigint E sigint address start_block
              end_block step show_progress_every w
            = (inl KeyboardInterrupt, w_k)
            ∧ (k < length timeline)%nat
            ∧ scan_codehash_timeline E address start_block
                (start_block + (Z.of_nat k - 1) * step) step
                show_progress_every w
              = (inr (take k timeline), w_k)
            ∧ queries w_k
              = queries w ++ ((λ e, (address, e.1)) <$> take k timeline)
            ∧ stdout w_k = stdout w ++ out
            ∧ Forall (λ o, is_scan_line o = true) out
      end.
Proof.
  intros Hrange Hstep Hspe.
  destruct (scan_codehash_timeline_run E address start_block end_block step
              show_progress_every w) as (w_end & _ & Hrun & _); [lia|done|].
  eexists _, w_end. split; [exact Hrun|].
  rewrite length_fmap. split; [by apply length_heights|].
  rewrite scan_codehash_timeline_sigint_run by done.
  destruct (first_sigint sigint 0 (length (heights start_block end_block step)))
    as [k|] eqn:Hfirst; [|done].
  apply first_sigint_Some in Hfirst as [Hk _].
  destruct (scan_codehash_timeline_trace E address start_block
              (start_block + (Z.of_nat k - 1) * step) step
              show_progress_every w)
    as (w_k & out & Hrun_k & Hout & Hlines & _); [lia|done|].
  destruct (scan_codehash_timeline_run E address start_block
              (start_block + (Z.of_nat k - 1) * step) step
              show_progress_every w)
    as (w_k' & _ & Hrun_k' & _ & _ & Hqueries); [lia|done|].
  assert (w_k' = w_k) as -> by congruence.
  rewrite <- (take_heights start_block end_block) in Hrun_k, Hqueries
    by (done || lia).
  exists w_k, out. rewrite Hrun_k, <- fmap_take, <- list_fmap_compose.
  split_and!; [done|lia|done..].
Qed.

(** The amended C9 on the interrupted scan of the heights 100 to 190. *)
Lemma C9_witness :
  100 ≤ 190 ∧ 1 ≤ 10 ∧ 25 ≠ 0 ∧
  ∃ timeline w_end,
    scan_codehash_timeline Demo.world_env Demo.address 100 190 10 25
      Demo.boot = (inr timeline, w_end)
    ∧ Z.of_nat (length timeline) = (190 - 100) / 10 + 1
    ∧ match first_sigint (Nat.eqb 3) 0 (length timeline) with
      | None =>
          scan_codehash_timeline_sigint Demo.world_env (Nat.eqb 3)
            Demo.address 100 190 10 25 Demo.boot = (inr timeline, w_end)
      | Some k =>
          ∃ w_k out,
            scan_codehash_timeline_sigint Demo.world_env (Nat.eqb 3)
              Demo.address 100 190 10 25 Demo.boot
            = (inl KeyboardInterrupt, w_k)
            ∧ (k < length timeline)%nat
            ∧ scan_codehash_timeline Demo.world_env Demo.address 100
                (100 + (Z.of_nat k - 1) * 10) 10 25 Demo.boot
              = (inr (take k timeline), w_k)
            ∧ queries w_k
              = queries Demo.boot
                ++ ((λ e, (Demo.address, e.1)) <$> take k timeline)
            ∧ stdout w_k = stdout Demo.boot ++ out
            ∧ Forall (λ o, is_scan_line o = true) out
      end.
Proof.
  split; [lia|]. split; [lia|]. split; [lia|].
  apply (C9_interrupt_discards_partial_timeline Demo.world_env (Nat.eqb 3)
           Demo.address 100 190 10 25 Demo.boot); lia.
Defined.
